(** * Verification of the TUPA document processor (document_processor.py)

    A shallow embedding of [DocumentProcessor.clean_text],
    [DocumentProcessor.chunk_text] and the source-name derivation of
    [DocumentProcessor.process_pdf_file], followed by the properties
    claimed about them.

    Python [str] values are sequences of Unicode code points; they are
    modelled as lists of code points ([N]).  [len] is [length]. *)

From Stdlib Require Import List ZArith NArith Lia Bool Arith.
From Stdlib Require Ascii String DecimalString DecimalNat.
Import ListNotations.
Import String.StringSyntax.

Local Open Scope list_scope.
Local Open Scope string_scope.
Local Open Scope nat_scope.

(** ** Python strings *)

Module PyStr.

Definition char := N.
Definition pystr := list char.

(** Literals: an ASCII literal of the source, as code points. *)
Definition of_string (s : String.string) : pystr :=
  map Ascii.N_of_ascii (String.list_ascii_of_string s).

Definition SPACE : char := 32%N.
Definition NEWLINE : char := 10%N.
Definition NUL : char := 0%N.

(** [Py_UNICODE_ISSPACE]: the predicate behind the regular expression
    class [\s] on [str] patterns, behind [str.strip()] and behind
    [str.split()] without argument. *)
Definition isspace (c : char) : bool :=
  ((9 <=? c) && (c <=? 13)          (* \t \n \v \f \r *)
   || (28 <=? c) && (c <=? 32)      (* FS GS RS US and the space *)
   || (c =? 133) || (c =? 160)      (* NEL, no-break space *)
   || (c =? 5760)
   || (8192 <=? c) && (c <=? 8202)
   || (c =? 8232) || (c =? 8233) || (c =? 8239) || (c =? 8287)
   || (c =? 12288))%N.

(** Truth value of a string: [if s:]. *)
Definition truthy (s : pystr) : bool :=
  match s with [] => false | _ :: _ => true end.

(** [re.sub('C+', r, s)] for a one-character class [C] and a
    one-character replacement [r]: every maximal run of characters of
    the class becomes one [r].  [in_run] tells that the previous
    character was in the class. *)
Fixpoint re_sub_plus_aux (cls : char -> bool) (r : char)
         (in_run : bool) (s : pystr) : pystr :=
  match s with
  | [] => []
  | c :: s' =>
      if cls c then
        if in_run then re_sub_plus_aux cls r true s'
        else r :: re_sub_plus_aux cls r true s'
      else c :: re_sub_plus_aux cls r false s'
  end.

Definition re_sub_plus (cls : char -> bool) (r : char) (s : pystr) : pystr :=
  re_sub_plus_aux cls r false s.

(** [s.startswith(pat)] *)
Fixpoint startswith (pat s : pystr) : bool :=
  match pat, s with
  | [], _ => true
  | _ :: _, [] => false
  | p :: pat', c :: s' => (p =? c)%N && startswith pat' s'
  end.

(** [s.replace(old, new)] for a non-empty [old]: the occurrences of
    [old] are found from the left and do not overlap.  [skip] counts
    the characters of a found occurrence that are still to be passed. *)
Fixpoint replace_aux (old new : pystr) (skip : nat) (s : pystr) : pystr :=
  match s with
  | [] => []
  | c :: s' =>
      match skip with
      | S k => replace_aux old new k s'
      | O =>
          if startswith old s
          then new ++ replace_aux old new (length old - 1) s'
          else c :: replace_aux old new 0 s'
      end
  end.

Definition replace (old new s : pystr) : pystr := replace_aux old new 0 s.

(** [s.split(sep)] for a non-empty [sep], as the first piece and the
    pieces after it (the result is never the empty list). *)
Fixpoint split_aux (sep : pystr) (skip : nat) (s : pystr) : pystr * list pystr :=
  match s with
  | [] => ([], [])
  | c :: s' =>
      match skip with
      | S k => split_aux sep k s'
      | O =>
          if startswith sep s
          then ([], let (h, t) := split_aux sep (length sep - 1) s' in h :: t)
          else let (h, t) := split_aux sep 0 s' in (c :: h, t)
      end
  end.

Definition split (sep s : pystr) : list pystr :=
  let (h, t) := split_aux sep 0 s in h :: t.

(** [sep.join(l)] *)
Fixpoint join (sep : pystr) (l : list pystr) : pystr :=
  match l with
  | [] => []
  | [x] => x
  | x :: l' => x ++ sep ++ join sep l'
  end.

(** [s.lstrip()], [s.rstrip()], [s.strip()] *)
Fixpoint lstrip (s : pystr) : pystr :=
  match s with
  | [] => []
  | c :: s' => if isspace c then lstrip s' else s
  end.

Definition rstrip (s : pystr) : pystr := rev (lstrip (rev s)).

Definition strip (s : pystr) : pystr := rstrip (lstrip s).

(** [s.split()]: the maximal runs of non-whitespace characters.
    [cur] is the word being read, if any. *)
Fixpoint split_ws_aux (cur : option pystr) (s : pystr) : list pystr :=
  match s with
  | [] => match cur with Some w => [w] | None => [] end
  | c :: s' =>
      if isspace c then
        match cur with
        | Some w => w :: split_ws_aux None s'
        | None => split_ws_aux None s'
        end
      else
        match cur with
        | Some w => split_ws_aux (Some (w ++ [c])) s'
        | None => split_ws_aux (Some [c]) s'
        end
  end.

Definition split_ws (s : pystr) : list pystr := split_ws_aux None s.

(** [s.endswith(suf)] *)
Definition endswith (suf s : pystr) : bool := startswith (rev suf) (rev s).

(** [l[-k:]] for [k > 0]: the start index [len(l) - k] is clamped at 0. *)
Definition slice_last {A} (k : nat) (l : list A) : list A :=
  skipn (length l - k) l.

(** [str(n)] for a non-negative integer. *)
Definition str_of_nat (n : nat) : pystr :=
  of_string (DecimalString.NilEmpty.string_of_uint (Nat.to_uint n)).

(** [os.path.basename] (posixpath): what follows the last slash. *)
Fixpoint basename_aux (cur : pystr) (s : pystr) : pystr :=
  match s with
  | [] => cur
  | c :: s' => if (c =? 47)%N then basename_aux s' s' else basename_aux cur s'
  end.

Definition basename (p : pystr) : pystr := basename_aux p p.

End PyStr.

Import PyStr.

(** ** The document processor *)

(** The [metadata] dictionary of a chunk always has the same three
    keys, ['source'], ['chunk_id'] and ['document_type']. *)
Record Metadata := mkMetadata {
  md_source : pystr;
  md_chunk_id : nat;
  md_document_type : pystr
}.

Record DocumentChunk := mkDocumentChunk {
  id : pystr;
  text : pystr;
  metadata : Metadata
}.

(** [rag_config] is not part of the sources: its two integers are
    taken as they come. *)
Record Config := mkConfig {
  chunk_size : Z;
  chunk_overlap : Z
}.

(** *** clean_text *)

Definition clean_lines (lines : list pystr) : list pystr :=
  map strip (filter (fun line => 10 <? length (strip line)) lines).

Definition clean_text (text : pystr) : pystr :=
  let text := re_sub_plus isspace SPACE text in
  let text := re_sub_plus (N.eqb NEWLINE) NEWLINE text in
  let text := replace [NUL] [] text in
  let lines := split [NEWLINE] text in
  join [NEWLINE] (clean_lines lines).

(** *** chunk_text *)

Definition make_chunk (source : pystr) (chunk_id : nat) (current_chunk : pystr)
  : DocumentChunk :=
  {| id := source ++ of_string "_chunk_" ++ str_of_nat chunk_id;
     text := strip current_chunk;
     metadata := {| md_source := source;
                    md_chunk_id := chunk_id;
                    md_document_type := of_string "tupa" |} |}.

(** The variables of the loop. *)
Record LoopState := mkLoopState {
  chunks : list DocumentChunk;
  current_chunk : pystr;
  chunk_id : nat
}.

Definition overlap_seed (overlap : Z) (current_chunk paragraph : pystr) : pystr :=
  let words := split_ws current_chunk in
  let overlap_words :=
    if (overlap <? Z.of_nat (length words))%Z
    then slice_last (Z.to_nat overlap) words
    else words in
  join [SPACE] overlap_words ++ [SPACE] ++ paragraph.

(** One iteration of [for paragraph in paragraphs]. *)
Definition chunk_step (cfg : Config) (source : pystr)
           (st : LoopState) (paragraph : pystr) : LoopState :=
  let cur := current_chunk st in
  if (chunk_size cfg <? Z.of_nat (length cur) + Z.of_nat (length paragraph))%Z then
    if truthy cur then
      {| chunks := chunks st ++ [make_chunk source (chunk_id st) cur];
         current_chunk :=
           if (0 <? chunk_overlap cfg)%Z
           then overlap_seed (chunk_overlap cfg) cur paragraph
           else paragraph;
         chunk_id := S (chunk_id st) |}
    else
      {| chunks := chunks st; current_chunk := paragraph; chunk_id := chunk_id st |}
  else
    {| chunks := chunks st;
       current_chunk :=
         if truthy cur then cur ++ [NEWLINE; NEWLINE] ++ paragraph else paragraph;
       chunk_id := chunk_id st |}.

Definition chunk_loop (cfg : Config) (source : pystr)
           (paragraphs : list pystr) (st : LoopState) : LoopState :=
  fold_left (chunk_step cfg source) paragraphs st.

Definition chunk_final (source : pystr) (st : LoopState) : list DocumentChunk :=
  if truthy (strip (current_chunk st))
  then chunks st ++ [make_chunk source (chunk_id st) (current_chunk st)]
  else chunks st.

Definition initial_state : LoopState :=
  {| chunks := []; current_chunk := []; chunk_id := 0 |}.

Definition paragraphs_of (text : pystr) : list pystr :=
  split [NEWLINE; NEWLINE] text.

Definition chunk_text (cfg : Config) (text source : pystr) : list DocumentChunk :=
  chunk_final source (chunk_loop cfg source (paragraphs_of text) initial_state).

(** *** process_pdf_file *)

Definition source_name_of (pdf_path : pystr) : pystr :=
  replace (of_string ".pdf") [] (basename pdf_path).

Section Process.

(** [extract_text_from_pdf] reads the file system; it returns the
    empty string when it fails.  Nothing below it raises, so the
    [try] of [process_pdf_file] has no other branch to take. *)
Variable extract_text_from_pdf : pystr -> pystr.
Variable cfg : Config.

Definition process_pdf_file (pdf_path : pystr) : list DocumentChunk :=
  let source_name := source_name_of pdf_path in
  let raw_text := extract_text_from_pdf pdf_path in
  if truthy raw_text
  then chunk_text cfg (clean_text raw_text) source_name
  else [].

End Process.

(** *** extract_text_from_pdf *)

(** The marker written before the text of a page:
    [f"\n--- Página {page_num + 1} ---\n"]. *)
Definition page_marker (page_num : nat) : pystr :=
  [NEWLINE] ++ of_string "--- P" ++ [225%N] ++ of_string "gina "
  ++ str_of_nat (page_num + 1) ++ of_string " ---" ++ [NEWLINE].

(** The loop [for page_num, page in enumerate(pdf_reader.pages)], on
    the texts of the pages; [text] is the string built so far. *)
Fixpoint extract_pages (page_num : nat) (pages : list pystr) (text : pystr) : pystr :=
  match pages with
  | [] => text
  | page_text :: rest =>
      extract_pages (S page_num) rest
                    (text ++ page_marker page_num ++ page_text ++ [NEWLINE])
  end.

(** [PyPDF2] is outside the sources: [read_pages path] is the list of
    the [page.extract_text()] of the file, or [None] when opening or
    reading it raises, which the [except] turns into the empty string. *)
Definition extract_text_from_pdf (read_pages : pystr -> option (list pystr))
           (pdf_path : pystr) : pystr :=
  match read_pages pdf_path with
  | Some pages => extract_pages 0 pages []
  | None => []
  end.

(** *** process_multiple_pdfs *)

(** [os.path.join(a, b)] (posixpath) *)
Definition path_join (a b : pystr) : pystr :=
  if startswith [47%N] b then b
  else if negb (truthy a) || endswith [47%N] a then a ++ b
  else a ++ [47%N] ++ b.

Section Directory.

Variable read_pages : pystr -> option (list pystr).
(** [os.listdir], [None] when it raises. *)
Variable listdir : pystr -> option (list pystr).
Variable cfg : Config.

Definition process_multiple_pdfs (pdf_directory : pystr) : list DocumentChunk :=
  match listdir pdf_directory with
  | None => []
  | Some entries =>
      let pdf_files := filter (endswith (of_string ".pdf")) entries in
      fold_left
        (fun all_chunks pdf_file =>
           all_chunks
           ++ process_pdf_file (extract_text_from_pdf read_pages) cfg
                               (path_join pdf_directory pdf_file))
        pdf_files []
  end.

End Directory.

(** ** Definitions used by the statements *)

(** The normalizer as the design notes allow it to be simplified:
    whitespace collapse, null removal and short-line filtering, without
    the substitution on newlines. *)
Definition clean_text_single_pass (text : pystr) : pystr :=
  let text := re_sub_plus isspace SPACE text in
  let text := replace [NUL] [] text in
  let lines := split [NEWLINE] text in
  join [NEWLINE] (clean_lines lines).

(** The source name as the specification words it: the display name
    with the [.pdf] suffix stripped if present. *)
Definition strip_pdf_suffix (name : pystr) : pystr :=
  if endswith (of_string ".pdf") name
  then firstn (length name - 4) name
  else name.

(** The one line that [clean_text] is left with before the length test. *)
Definition scrubbed (text : pystr) : pystr :=
  strip (filter (fun c => negb (c =? NUL)%N) (re_sub_plus isspace SPACE text)).

(** Every whitespace character is a space and no two spaces are
    adjacent; [prev_space] tells that a space comes just before. *)
Fixpoint ws_normal (prev_space : bool) (s : pystr) : bool :=
  match s with
  | [] => true
  | c :: s' =>
      if isspace c
      then (c =? SPACE)%N && negb prev_space && ws_normal true s'
      else ws_normal false s'
  end.

(** Numbering of the fragments emitted so far. *)
Definition fmt_id (source : pystr) (i : nat) : pystr * nat :=
  (source ++ of_string "_chunk_" ++ str_of_nat i, i).

Definition key_of (c : DocumentChunk) : pystr * nat :=
  (id c, md_chunk_id (metadata c)).

Definition numbered (source : pystr) (st : LoopState) : Prop :=
  chunk_id st = length (chunks st)
  /\ map key_of (chunks st) = map (fmt_id source) (seq 0 (length (chunks st))).

(** Sizes of the accumulator and of the fragments emitted so far. *)
Section SizeDefs.

Variable cfg : Config.
Variable paragraphs : list pystr.

Definition seeded_by_overlap (acc : pystr) : Prop :=
  (0 < chunk_overlap cfg)%Z
  /\ exists prev p, In p paragraphs /\ acc = overlap_seed (chunk_overlap cfg) prev p.

Definition oversized_paragraph (acc : pystr) : Prop :=
  In acc paragraphs /\ (chunk_size cfg < Z.of_nat (length acc))%Z.

Definition acc_sized (acc : pystr) : Prop :=
  (Z.of_nat (length acc) <= chunk_size cfg + 2)%Z
  \/ oversized_paragraph acc \/ seeded_by_overlap acc.

Definition fragment_sized (f : DocumentChunk) : Prop :=
  exists acc, text f = strip acc /\ acc_sized acc.

Definition sized (st : LoopState) : Prop :=
  (current_chunk st = [] \/ acc_sized (current_chunk st))
  /\ Forall fragment_sized (chunks st).

End SizeDefs.

(** A word: not empty and without whitespace. *)
Definition is_word (w : pystr) : bool :=
  truthy w && forallb (fun c => negb (isspace c)) w.

(** A text with something to read in it. *)
Definition has_content (s : pystr) : bool :=
  existsb (fun c => negb (isspace c)) s.

(** The paragraph [p] lies in the accumulator, or in the accumulator
    that a fragment emitted so far was trimmed from. *)
Definition held_by (acc p : pystr) : Prop :=
  exists pre post, acc = pre ++ p ++ post.

Definition covered (cs : list DocumentChunk) (p : pystr) : Prop :=
  exists f pre post, In f cs /\ text f = strip (pre ++ p ++ post).

(** One more fragment is due when the accumulator is not empty. *)
Definition pending (st : LoopState) : nat :=
  if truthy (current_chunk st) then 1 else 0.

(** The marker of the first page, without the newlines around it:
    [--- Página 1 ---]. *)
Definition first_page_marker : pystr :=
  of_string "--- P" ++ [225%N] ++ of_string "gina 1 ---".

(** The file can be read and has a page. *)
Definition has_pages (read_pages : pystr -> option (list pystr)) (path : pystr) : bool :=
  match read_pages path with
  | Some (_ :: _) => true
  | _ => false
  end.

(** The paragraphs read so far are in the accumulator, after
    whitespace only, and nothing was emitted. *)
Definition gathered (done : list pystr) (st : LoopState) : Prop :=
  chunks st = [] /\ chunk_id st = 0
  /\ exists w, forallb isspace w = true
               /\ join [NEWLINE; NEWLINE] done = w ++ current_chunk st.

(** Two adjacent occurrences of [c]: a run of [c] longer than one.
    A normalized text has no such run of newlines, hence no blank-line
    separator. *)
Fixpoint has_adjacent (c : char) (s : pystr) : bool :=
  match s with
  | [] => false
  | a :: s' =>
      match s' with
      | [] => false
      | b :: _ => (a =? c)%N && (b =? c)%N || has_adjacent c s'
      end
  end.

(** Inputs of the examples. *)
Definition two_paragraphs : pystr :=
  of_string "aa bb cc dd" ++ [NEWLINE; NEWLINE] ++ of_string "ee ff".

Definition near_bound_text : pystr :=
  of_string "aaaaaaaaaa bbbbbbbbb" ++ [NEWLINE; NEWLINE]
  ++ of_string "cccccccccc ddddddddd".

Definition overlap_fragment : DocumentChunk :=
  make_chunk (of_string "doc") 1
    (of_string "aaaaaaaaaa bbbbbbbbb cccccccccc ddddddddd").

Definition blank_paragraphs : pystr :=
  [SPACE; SPACE; NEWLINE; NEWLINE; SPACE; SPACE].

Definition indented_text : pystr :=
  repeat SPACE 12 ++ [NEWLINE; NEWLINE] ++ of_string "REQUISITOS TUPA".

Definition nul_between_spaces : pystr :=
  of_string "PLAZO: 15 " ++ [NUL] ++ of_string " dias habiles".

Definition nul_in_cost_line : pystr :=
  of_string "COSTO: S/ 120.00 " ++ [NUL] ++ of_string " (12% UIT)".

Definition doubled_extension : pystr := of_string "docs/tupa.pdf_2024.pdf".

(** A directory and its files, for the examples. *)
Definition sample_listdir (dir : pystr) : option (list pystr) :=
  if startswith (of_string "docs") dir
  then Some [of_string "tupa.pdf"; of_string "notas.txt";
             of_string "vacio.pdf"; of_string "licencias.pdf"]
  else None.

Definition sample_reader (path : pystr) : option (list pystr) :=
  if endswith (of_string "tupa.pdf") path
  then Some [of_string "REQUISITOS"; of_string "PLAZO: 15 dias"]
  else if endswith (of_string "licencias.pdf") path
  then Some [of_string "LICENCIA DE FUNCIONAMIENTO"]
  else if endswith (of_string "vacio.pdf") path
  then Some []
  else None.

Definition requisitos_line : pystr :=
  of_string "  REQUISITOS:   copia del   RUC  ".

(** * Lemmas *)

(** ** Properties of the string operations *)

Section StringFacts.

Lemma re_sub_plus_aux_id (cls : char -> bool) (r : char) (b : bool) (s : pystr) :
  (forall c, In c s -> cls c = false) ->
  re_sub_plus_aux cls r b s = s.
Proof.
  revert b; induction s as [|c s IH]; intros b H; simpl; [reflexivity|].
  rewrite (H c (or_introl eq_refl)).
  f_equal. apply IH. intros d Hd. apply H. now right.
Qed.

Lemma collapse_only_space (b : bool) (s : pystr) (c : char) :
  In c (re_sub_plus_aux isspace SPACE b s) -> isspace c = true -> c = SPACE.
Proof.
  revert b; induction s as [|d s IH]; intros b Hin Hc; simpl in Hin; [contradiction|].
  destruct (isspace d) eqn:Hd.
  - destruct b.
    + eapply IH; eauto.
    + destruct Hin as [<-|Hin]; [reflexivity|]. eapply IH; eauto.
  - destruct Hin as [<-|Hin]; [congruence|]. eapply IH; eauto.
Qed.

Lemma collapse_no_newline (s : pystr) :
  ~ In NEWLINE (re_sub_plus isspace SPACE s).
Proof.
  intros H. apply collapse_only_space in H; [discriminate|reflexivity].
Qed.

Lemma replace_nul_filter (s : pystr) :
  replace [NUL] [] s = filter (fun c => negb (c =? NUL)%N) s.
Proof.
  unfold replace. induction s as [|c s IH]; [reflexivity|].
  cbn [replace_aux startswith length Nat.sub filter app].
  rewrite andb_true_r, N.eqb_sym.
  destruct (c =? NUL)%N; cbn [negb]; [exact IH | now rewrite IH].
Qed.

Lemma split_aux_absent (c0 : char) (sep s : pystr) :
  ~ In c0 s -> split_aux (c0 :: sep) 0 s = (s, []).
Proof.
  induction s as [|c s IH]; intros H; [reflexivity|].
  cbn [split_aux startswith].
  destruct (c0 =? c)%N eqn:E.
  - apply N.eqb_eq in E. subst. exfalso. apply H. now left.
  - cbn [andb]. rewrite IH; [reflexivity|]. intros Hin. apply H. now right.
Qed.

Lemma split_absent (c0 : char) (sep s : pystr) :
  ~ In c0 s -> split (c0 :: sep) s = [s].
Proof.
  intros H. unfold split. now rewrite split_aux_absent.
Qed.

End StringFacts.

(** *** Stripping *)

Section StripFacts.

Lemma lstrip_decompose (s : pystr) :
  exists w, s = w ++ lstrip s /\ forallb isspace w = true.
Proof.
  induction s as [|c s (w & Hs & Hw)]; [now exists []|].
  simpl. destruct (isspace c) eqn:Hc.
  - exists (c :: w). simpl. rewrite Hc, Hw. split; [now f_equal | reflexivity].
  - now exists [].
Qed.

Lemma rstrip_decompose (s : pystr) :
  exists w, s = rstrip s ++ w /\ forallb isspace w = true.
Proof.
  destruct (lstrip_decompose (rev s)) as (w & Hs & Hw).
  exists (rev w). split.
  - unfold rstrip. rewrite <- rev_app_distr, <- Hs. now rewrite rev_involutive.
  - rewrite forallb_forall in *. intros c Hc. apply Hw. now apply in_rev.
Qed.

Lemma strip_decompose (s : pystr) :
  exists w1 w2, s = w1 ++ strip s ++ w2
                /\ forallb isspace w1 = true /\ forallb isspace w2 = true.
Proof.
  destruct (lstrip_decompose s) as (w1 & H1 & Hw1).
  destruct (rstrip_decompose (lstrip s)) as (w2 & H2 & Hw2).
  exists w1, w2. unfold strip. now rewrite <- H2.
Qed.

Lemma strip_incl (s : pystr) (c : char) : In c (strip s) -> In c s.
Proof.
  destruct (strip_decompose s) as (w1 & w2 & H & _).
  intros Hc. rewrite H. apply in_or_app. right. apply in_or_app. now left.
Qed.

Lemma length_strip_le (s : pystr) : length (strip s) <= length s.
Proof.
  destruct (strip_decompose s) as (w1 & w2 & H & _).
  rewrite H at 2. rewrite !length_app. lia.
Qed.

Lemma strip_nil : strip [] = [].
Proof. reflexivity. Qed.

Lemma truthy_strip (s : pystr) : truthy (strip s) = true -> truthy s = true.
Proof. destruct s; [discriminate | reflexivity]. Qed.

Lemma lstrip_blank (w : pystr) : forallb isspace w = true -> lstrip w = [].
Proof.
  induction w as [|c w IH]; [reflexivity|].
  cbn [forallb lstrip]. intros H. apply andb_prop in H as [-> H]. auto.
Qed.

Lemma strip_blank (w : pystr) : forallb isspace w = true -> strip w = [].
Proof.
  intros H. unfold strip. now rewrite lstrip_blank.
Qed.

Lemma lstrip_head (s : pystr) :
  lstrip s = [] \/ exists c t, lstrip s = c :: t /\ isspace c = false.
Proof.
  induction s as [|c s IH]; [now left|].
  cbn [lstrip]. destruct (isspace c) eqn:Hc; [exact IH|].
  right. now exists c, s.
Qed.

Lemma lstrip_fixed (c : char) (t : pystr) :
  isspace c = false -> lstrip (c :: t) = c :: t.
Proof. intros H. cbn [lstrip]. now rewrite H. Qed.

Lemma lstrip_idem (s : pystr) : lstrip (lstrip s) = lstrip s.
Proof.
  destruct (lstrip_head s) as [->|(c & t & -> & Hc)]; [reflexivity|].
  now apply lstrip_fixed.
Qed.

Lemma rstrip_idem (s : pystr) : rstrip (rstrip s) = rstrip s.
Proof.
  unfold rstrip. now rewrite rev_involutive, lstrip_idem.
Qed.

Lemma lstrip_keeps_last (u : pystr) (c : char) :
  isspace c = false -> exists v, lstrip (u ++ [c]) = v ++ [c].
Proof.
  intros Hc. induction u as [|d u (v & IH)].
  - exists []. now apply lstrip_fixed.
  - cbn [app lstrip]. destruct (isspace d); [now exists v|].
    now exists (d :: u).
Qed.

Lemma lstrip_rstrip_lstrip (s : pystr) :
  lstrip (rstrip (lstrip s)) = rstrip (lstrip s).
Proof.
  destruct (lstrip_head s) as [->|(c & t & -> & Hc)]; [reflexivity|].
  unfold rstrip. cbn [rev].
  destruct (lstrip_keeps_last (rev t) c Hc) as (v & ->).
  rewrite rev_app_distr. now apply lstrip_fixed.
Qed.

Lemma strip_idem (s : pystr) : strip (strip s) = strip s.
Proof.
  unfold strip. now rewrite lstrip_rstrip_lstrip, rstrip_idem.
Qed.

End StripFacts.

(** *** The shape of [clean_text] *)

Section CleanFacts.

Lemma newline_pass_dead (text : pystr) :
  re_sub_plus (N.eqb NEWLINE) NEWLINE (re_sub_plus isspace SPACE text)
  = re_sub_plus isspace SPACE text.
Proof.
  apply re_sub_plus_aux_id. intros c Hc.
  apply N.eqb_neq. intros <-. now apply (collapse_no_newline text).
Qed.

Lemma scrub_no_newline (text : pystr) :
  ~ In NEWLINE (filter (fun c => negb (c =? NUL)%N) (re_sub_plus isspace SPACE text)).
Proof.
  intros H. apply filter_In in H. now apply (collapse_no_newline text).
Qed.

Lemma clean_text_single_pass_shape (text : pystr) :
  clean_text_single_pass text =
  if 10 <? length (scrubbed text) then scrubbed text else [].
Proof.
  unfold clean_text_single_pass, scrubbed.
  rewrite replace_nul_filter, split_absent by apply scrub_no_newline.
  unfold clean_lines. cbn [filter].
  now destruct (10 <? _).
Qed.

Lemma clean_text_shape (text : pystr) :
  clean_text text = if 10 <? length (scrubbed text) then scrubbed text else [].
Proof.
  rewrite <- clean_text_single_pass_shape.
  unfold clean_text, clean_text_single_pass. now rewrite newline_pass_dead.
Qed.

Lemma scrubbed_no_newline (text : pystr) : ~ In NEWLINE (scrubbed text).
Proof.
  intros H. apply strip_incl in H. now apply (scrub_no_newline text).
Qed.

Lemma scrubbed_no_nul (text : pystr) : ~ In NUL (scrubbed text).
Proof.
  intros H. apply strip_incl, filter_In in H. now destruct H.
Qed.

Lemma clean_text_no_newline (text : pystr) : ~ In NEWLINE (clean_text text).
Proof.
  rewrite clean_text_shape. destruct (10 <? _); [apply scrubbed_no_newline | easy].
Qed.

Lemma clean_text_no_nul (text : pystr) : ~ In NUL (clean_text text).
Proof.
  rewrite clean_text_shape. destruct (10 <? _); [apply scrubbed_no_nul | easy].
Qed.

Lemma clean_text_length (text : pystr) :
  clean_text text = [] \/ 10 < length (clean_text text).
Proof.
  rewrite clean_text_shape. destruct (10 <? _) eqn:E; [right | now left].
  now apply Nat.ltb_lt.
Qed.

End CleanFacts.

(** *** Texts that the whitespace substitution leaves alone *)

Section NormalFacts.

Lemma ws_normal_collapse (b : bool) (s : pystr) :
  ws_normal b (re_sub_plus_aux isspace SPACE b s) = true.
Proof.
  revert b; induction s as [|c s IH]; intros b; [reflexivity|].
  cbn [re_sub_plus_aux]. destruct (isspace c) eqn:Hc.
  - destruct b; [apply IH|]. cbn. apply IH.
  - cbn [ws_normal]. rewrite Hc. apply IH.
Qed.

Lemma ws_normal_fixed (b : bool) (s : pystr) :
  ws_normal b s = true -> re_sub_plus_aux isspace SPACE b s = s.
Proof.
  revert b; induction s as [|c s IH]; intros b H; [reflexivity|].
  cbn [ws_normal re_sub_plus_aux] in *. destruct (isspace c).
  - apply andb_prop in H as [H Hs]. apply andb_prop in H as [Hc Hb].
    apply N.eqb_eq in Hc. apply negb_true_iff in Hb. subst.
    now rewrite IH.
  - now rewrite IH.
Qed.

Lemma ws_normal_weaken (b : bool) (s : pystr) :
  ws_normal b s = true -> ws_normal false s = true.
Proof.
  destruct b; [|easy]. destruct s as [|c s]; [easy|].
  cbn [ws_normal]. destruct (isspace c); [|easy].
  now rewrite andb_false_r.
Qed.

Lemma ws_normal_suffix (b : bool) (w s : pystr) :
  ws_normal b (w ++ s) = true -> ws_normal false s = true.
Proof.
  revert b; induction w as [|c w IH]; intros b H.
  - now apply ws_normal_weaken with b.
  - cbn [app ws_normal] in H. destruct (isspace c).
    + apply andb_prop in H as [_ H]. now apply IH with true.
    + now apply IH with false.
Qed.

Lemma ws_normal_prefix (b : bool) (s w : pystr) :
  ws_normal b (s ++ w) = true -> ws_normal b s = true.
Proof.
  revert b; induction s as [|c s IH]; intros b H; [reflexivity|].
  cbn [app ws_normal] in *. destruct (isspace c).
  - apply andb_prop in H as [H Hs]. rewrite H. now apply IH.
  - now apply IH.
Qed.

Lemma ws_normal_strip (b : bool) (s : pystr) :
  ws_normal b s = true -> ws_normal false (strip s) = true.
Proof.
  destruct (strip_decompose s) as (w1 & w2 & H & _).
  intros Hn. rewrite H in Hn.
  apply ws_normal_suffix in Hn. now apply ws_normal_prefix in Hn.
Qed.

Lemma ws_normal_no_double_space (pre post : pystr) :
  ws_normal false (pre ++ [SPACE; SPACE] ++ post) = false.
Proof.
  destruct (ws_normal false _) eqn:E; [|reflexivity].
  apply ws_normal_suffix in E. discriminate.
Qed.

Lemma collapse_chars (b : bool) (s : pystr) (c : char) :
  In c (re_sub_plus_aux isspace SPACE b s) -> c = SPACE \/ In c s.
Proof.
  revert b; induction s as [|d s IH]; intros b H; [contradiction|].
  cbn [re_sub_plus_aux] in H.
  destruct (isspace d); [destruct b|]; cbn [In] in *.
  - destruct (IH _ H); auto.
  - destruct H as [<-|H]; [now left|]. destruct (IH _ H); auto.
  - destruct H as [<-|H]; [auto|]. destruct (IH _ H); auto.
Qed.

Lemma filter_nul_free (s : pystr) :
  ~ In NUL s -> filter (fun c => negb (c =? NUL)%N) s = s.
Proof.
  induction s as [|c s IH]; intros H; [reflexivity|].
  cbn [filter]. destruct (c =? NUL)%N eqn:E.
  - apply N.eqb_eq in E. subst. exfalso. apply H. now left.
  - cbn [negb]. rewrite IH; [reflexivity|]. intros Hin. apply H. now right.
Qed.

Lemma scrubbed_nul_free (x : pystr) :
  ~ In NUL x -> scrubbed x = strip (re_sub_plus isspace SPACE x).
Proof.
  intros H. unfold scrubbed. rewrite filter_nul_free; [reflexivity|].
  intros Hin. apply collapse_chars in Hin as [Hin|Hin]; [discriminate | auto].
Qed.

Lemma scrubbed_fixed (y : pystr) :
  ws_normal false y = true -> ~ In NUL y -> strip y = y -> scrubbed y = y.
Proof.
  intros Hn Hnul Hs. rewrite scrubbed_nul_free by assumption.
  unfold re_sub_plus. now rewrite ws_normal_fixed.
Qed.

Lemma scrubbed_normal (x : pystr) :
  ~ In NUL x -> ws_normal false (scrubbed x) = true.
Proof.
  intros H. rewrite scrubbed_nul_free by assumption.
  apply ws_normal_strip with false. apply ws_normal_collapse.
Qed.

Lemma scrubbed_stripped (x : pystr) : strip (scrubbed x) = scrubbed x.
Proof. apply strip_idem. Qed.

(** Without null characters in the input, [clean_text] is idempotent
    and leaves no two adjacent spaces. *)
Lemma clean_text_idempotent_nul_free (x : pystr) :
  ~ In NUL x -> clean_text (clean_text x) = clean_text x.
Proof.
  intros H. rewrite (clean_text_shape x).
  destruct (10 <? length (scrubbed x)) eqn:E; [|reflexivity].
  rewrite clean_text_shape.
  rewrite scrubbed_fixed; [now rewrite E | | | ].
  - now apply scrubbed_normal.
  - apply scrubbed_no_nul.
  - apply scrubbed_stripped.
Qed.

Lemma clean_text_normal_nul_free (x : pystr) :
  ~ In NUL x -> ws_normal false (clean_text x) = true.
Proof.
  intros H. rewrite clean_text_shape.
  destruct (10 <? _); [now apply scrubbed_normal | reflexivity].
Qed.

End NormalFacts.

(** *** The loop of [chunk_text] *)

Section ChunkFacts.

Variable cfg : Config.
Variable source : pystr.

(** An invariant of the loop is kept by all its iterations. *)
Lemma chunk_loop_ind (P : LoopState -> Prop) (paragraphs : list pystr) :
  (forall st p, In p paragraphs -> P st -> P (chunk_step cfg source st p)) ->
  forall st, P st -> P (chunk_loop cfg source paragraphs st).
Proof.
  unfold chunk_loop.
  induction paragraphs as [|p ps IH]; intros Hstep st Hst; [exact Hst|].
  simpl. apply IH.
  - intros st' q Hq. apply Hstep. now right.
  - apply Hstep; [now left | exact Hst].
Qed.

Lemma chunk_step_initial (p : pystr) :
  chunk_step cfg source initial_state p
  = {| chunks := []; current_chunk := p; chunk_id := 0 |}.
Proof.
  unfold chunk_step, initial_state. cbn.
  now destruct (_ <? _)%Z.
Qed.

Lemma chunk_text_single (txt p : pystr) :
  paragraphs_of txt = [p] ->
  chunk_text cfg txt source
  = if truthy (strip p) then [make_chunk source 0 p] else [].
Proof.
  intros H. unfold chunk_text, chunk_loop. rewrite H. cbn [fold_left].
  rewrite chunk_step_initial. reflexivity.
Qed.

(** Numbering. *)
Lemma numbered_emit (st : LoopState) (acc : pystr) :
  numbered source st ->
  map key_of (chunks st ++ [make_chunk source (chunk_id st) acc])
  = map (fmt_id source) (seq 0 (length (chunks st ++ [make_chunk source (chunk_id st) acc]))).
Proof.
  intros [Hid Hmap].
  rewrite length_app, Nat.add_1_r, seq_S, !map_app, Hmap, Hid. reflexivity.
Qed.

Lemma numbered_step (st : LoopState) (p : pystr) :
  numbered source st -> numbered source (chunk_step cfg source st p).
Proof.
  intros H. pose proof (numbered_emit st (current_chunk st) H) as He.
  destruct H as [Hid Hmap]. unfold chunk_step.
  destruct (_ <? _)%Z; [destruct (truthy _)|]; split; cbn; try assumption.
  rewrite length_app, Nat.add_1_r. now f_equal.
Qed.

Lemma numbered_loop (paragraphs : list pystr) :
  numbered source (chunk_loop cfg source paragraphs initial_state).
Proof.
  apply chunk_loop_ind.
  - intros st p _. apply numbered_step.
  - now split.
Qed.

Lemma numbered_final (st : LoopState) :
  numbered source st ->
  map key_of (chunk_final source st)
  = map (fmt_id source) (seq 0 (length (chunk_final source st))).
Proof.
  intros H. unfold chunk_final. destruct (truthy _).
  - now apply numbered_emit.
  - apply H.
Qed.

End ChunkFacts.

(** *** Sizes of the fragments *)

Section SizeFacts.

Variable cfg : Config.
Variable source : pystr.
Variable paragraphs : list pystr.

Local Abbreviation acc_sized := (acc_sized cfg paragraphs).
Local Abbreviation fragment_sized := (fragment_sized cfg paragraphs).
Local Abbreviation sized := (sized cfg paragraphs).

Lemma paragraph_sized (p : pystr) : In p paragraphs -> acc_sized p.
Proof.
  intros Hp. unfold acc_sized, oversized_paragraph.
  destruct (Z_le_gt_dec (Z.of_nat (length p)) (chunk_size cfg + 2)); [now left|].
  right; left. split; [assumption | lia].
Qed.

Lemma sized_emit (st : LoopState) :
  sized st -> truthy (current_chunk st) = true ->
  Forall fragment_sized
         (chunks st ++ [make_chunk source (chunk_id st) (current_chunk st)]).
Proof.
  intros [[Hnil|Hacc] Hcs] Ht.
  - rewrite Hnil in Ht. discriminate.
  - apply Forall_app. split; [assumption|].
    constructor; [|constructor]. now exists (current_chunk st).
Qed.

Lemma sized_step (st : LoopState) (p : pystr) :
  In p paragraphs -> sized st -> sized (chunk_step cfg source st p).
Proof.
  intros Hp Hst. pose proof (sized_emit st Hst) as Hemit.
  pose proof (paragraph_sized p Hp) as Hpar.
  destruct Hst as [Hcur Hcs]. unfold chunk_step.
  destruct (_ <? _)%Z eqn:Hsize.
  - destruct (truthy (current_chunk st)) eqn:Ht; split; cbn; auto.
    destruct (0 <? chunk_overlap cfg)%Z eqn:Hov; [|now right].
    right. right. right. split; [now apply Z.ltb_lt|].
    now exists (current_chunk st), p.
  - apply Z.ltb_ge in Hsize.
    split; cbn; [|assumption].
    destruct (truthy (current_chunk st)); [|now right].
    right. left. rewrite !length_app. cbn [length]. lia.
Qed.

Lemma sized_loop :
  sized (chunk_loop cfg source paragraphs initial_state).
Proof.
  apply chunk_loop_ind.
  - intros st p. apply sized_step.
  - split; [now left | constructor].
Qed.

Lemma sized_final (st : LoopState) :
  sized st -> Forall fragment_sized (chunk_final source st).
Proof.
  intros H. unfold chunk_final. destruct (truthy (strip _)) eqn:Ht.
  - apply sized_emit; [assumption | now apply truthy_strip].
  - apply H.
Qed.

End SizeFacts.

(** *** The accumulator after an emission *)

Section OverlapFacts.

Variable cfg : Config.
Variable source : pystr.

Lemma slice_last_spec {A} (k : nat) (l : list A) :
  exists skipped, l = skipped ++ slice_last k l
                  /\ length (slice_last k l) = Nat.min k (length l).
Proof.
  exists (firstn (length l - k) l). unfold slice_last. split.
  - now rewrite firstn_skipn.
  - rewrite length_skipn. lia.
Qed.

Lemma overlap_words_slice (k : Z) (words : list pystr) :
  (if (k <? Z.of_nat (length words))%Z
   then slice_last (Z.to_nat k) words else words)
  = slice_last (Z.to_nat k) words.
Proof.
  destruct (k <? _)%Z eqn:E; [reflexivity|].
  apply Z.ltb_ge in E. unfold slice_last.
  replace (length words - Z.to_nat k) with 0 by lia. reflexivity.
Qed.

Lemma chunk_step_emit (st : LoopState) (p : pystr) :
  truthy (current_chunk st) = true ->
  (chunk_size cfg < Z.of_nat (length (current_chunk st)) + Z.of_nat (length p))%Z ->
  chunk_step cfg source st p =
  {| chunks := chunks st ++ [make_chunk source (chunk_id st) (current_chunk st)];
     current_chunk :=
       if (0 <? chunk_overlap cfg)%Z
       then overlap_seed (chunk_overlap cfg) (current_chunk st) p
       else p;
     chunk_id := S (chunk_id st) |}.
Proof.
  intros Ht Hsize. apply Z.ltb_lt in Hsize.
  unfold chunk_step. now rewrite Hsize, Ht.
Qed.

Lemma chunk_step_grow (st : LoopState) (p : pystr) :
  exists more, chunks (chunk_step cfg source st p) = chunks st ++ more.
Proof.
  unfold chunk_step.
  destruct (_ <? _)%Z; [destruct (truthy _)|]; cbn;
    eauto using app_nil_r.
  all: exists []; now rewrite app_nil_r.
Qed.

Lemma chunk_loop_grow (ps : list pystr) (st : LoopState) :
  exists more, chunks (chunk_loop cfg source ps st) = chunks st ++ more.
Proof.
  revert st. induction ps as [|p ps IH]; intros st.
  - exists []. cbn. now rewrite app_nil_r.
  - cbn. destruct (IH (chunk_step cfg source st p)) as (m2 & H2).
    destruct (chunk_step_grow st p) as (m1 & H1).
    exists (m1 ++ m2). unfold chunk_loop in H2. now rewrite H2, H1, app_assoc.
Qed.

Lemma chunk_final_grow (st : LoopState) :
  exists more, chunk_final source st = chunks st ++ more.
Proof.
  unfold chunk_final. destruct (truthy _); eauto.
  exists []. now rewrite app_nil_r.
Qed.

Lemma chunk_run_grow (ps : list pystr) (st : LoopState) :
  exists more,
    chunk_final source (chunk_loop cfg source ps st) = chunks st ++ more.
Proof.
  destruct (chunk_loop_grow ps st) as (m1 & H1).
  destruct (chunk_final_grow (chunk_loop cfg source ps st)) as (m2 & H2).
  exists (m1 ++ m2). now rewrite H2, H1, app_assoc.
Qed.

Lemma nth_error_middle {A} (l1 l2 : list A) (a : A) :
  nth_error (l1 ++ a :: l2) (length l1) = Some a.
Proof.
  rewrite nth_error_app2 by lia. now rewrite Nat.sub_diag.
Qed.

(** The fragment that an accumulator ends in, when it is not empty. *)
Lemma next_fragment (rest : list pystr) :
  forall (st : LoopState) (f : DocumentChunk),
    truthy (current_chunk st) = true ->
    nth_error (chunk_final source (chunk_loop cfg source rest st))
              (length (chunks st)) = Some f ->
    exists sfx, f = make_chunk source (chunk_id st) (current_chunk st ++ sfx).
Proof.
  induction rest as [|p ps IH]; intros st f Ht Hnth.
  - cbn in Hnth. unfold chunk_final in Hnth.
    destruct (truthy (strip _)).
    + rewrite nth_error_middle in Hnth. injection Hnth as <-.
      exists []. now rewrite app_nil_r.
    + assert (H : nth_error (chunks st) (length (chunks st)) = None)
        by now apply nth_error_None.
      congruence.
  - change (chunk_loop cfg source (p :: ps) st)
      with (chunk_loop cfg source ps (chunk_step cfg source st p)) in Hnth.
    destruct (Z.ltb (chunk_size cfg)
                (Z.of_nat (length (current_chunk st)) + Z.of_nat (length p)))
      eqn:Hsize.
    + apply Z.ltb_lt in Hsize.
      rewrite (chunk_step_emit st p Ht Hsize) in Hnth.
      match type of Hnth with
      | nth_error (chunk_final _ (chunk_loop _ _ _ ?s)) _ = _ =>
          destruct (chunk_run_grow ps s) as (more & Hm)
      end.
      rewrite Hm in Hnth. cbn [chunks] in Hnth.
      rewrite <- app_assoc in Hnth. cbn [app] in Hnth.
      rewrite nth_error_middle in Hnth. injection Hnth as <-.
      exists []. now rewrite app_nil_r.
    + assert (Hstep : chunk_step cfg source st p =
                {| chunks := chunks st;
                   current_chunk := current_chunk st ++ [NEWLINE; NEWLINE] ++ p;
                   chunk_id := chunk_id st |})
        by (unfold chunk_step; now rewrite Hsize, Ht).
      assert (Hgrown : truthy (current_chunk st ++ [NEWLINE; NEWLINE] ++ p) = true)
        by (destruct (current_chunk st); [discriminate|reflexivity]).
      rewrite Hstep in Hnth.
      destruct (IH (mkLoopState (chunks st)
                                (current_chunk st ++ [NEWLINE; NEWLINE] ++ p)
                                (chunk_id st)) f Hgrown Hnth) as (sfx & ->).
      cbn [chunks current_chunk chunk_id].
      exists ([NEWLINE; NEWLINE] ++ p ++ sfx). now rewrite <- !app_assoc.
Qed.

End OverlapFacts.

(** *** Texts of one paragraph *)

Section SingleParagraph.

Variable cfg : Config.
Variable source : pystr.

Lemma chunk_text_split (txt : pystr)
      (before : list pystr) (p : pystr) (rest : list pystr) :
  paragraphs_of txt = before ++ p :: rest ->
  chunk_text cfg txt source
  = chunk_final source
      (chunk_loop cfg source rest
         (chunk_step cfg source (chunk_loop cfg source before initial_state) p)).
Proof.
  intros H. unfold chunk_text, chunk_loop. now rewrite H, fold_left_app.
Qed.

(** Scenario 3: the empty text gives no fragment, whatever the configuration. *)
Lemma chunk_text_empty : chunk_text cfg [] source = [].
Proof.
  now rewrite (chunk_text_single cfg source [] []).
Qed.

(** A blank text of one paragraph gives no fragment, whatever the
    configuration. *)
Lemma chunk_text_blank_paragraph (txt : pystr) :
  forallb isspace txt = true -> paragraphs_of txt = [txt] ->
  chunk_text cfg txt source = [].
Proof.
  intros Hb Hp. rewrite (chunk_text_single cfg source txt txt Hp).
  now rewrite strip_blank.
Qed.

Lemma clean_text_stripped (x : pystr) : strip (clean_text x) = clean_text x.
Proof.
  rewrite clean_text_shape.
  destruct (10 <? _); [apply scrubbed_stripped | reflexivity].
Qed.

Lemma paragraphs_of_clean_text (x : pystr) :
  paragraphs_of (clean_text x) = [clean_text x].
Proof. apply split_absent, clean_text_no_newline. Qed.

Lemma chunk_text_normalized (x : pystr) :
  chunk_text cfg (clean_text x) source
  = if truthy (clean_text x)
    then [make_chunk source 0 (clean_text x)] else [].
Proof.
  rewrite (chunk_text_single cfg source _ (clean_text x)), clean_text_stripped;
    [reflexivity | apply paragraphs_of_clean_text].
Qed.

(** On the texts that [clean_text] returns the size bound is exact:
    the only fragment is the text itself, one paragraph. *)
Lemma chunk_size_bound_normalized (x : pystr) (f : DocumentChunk) :
  In f (chunk_text cfg (clean_text x) source) ->
  (Z.of_nat (length (text f)) <= chunk_size cfg)%Z
  \/ (paragraphs_of (clean_text x) = [text f]
      /\ (chunk_size cfg < Z.of_nat (length (text f)))%Z).
Proof.
  intros Hf. rewrite chunk_text_normalized in Hf.
  destruct (truthy _); [|contradiction].
  destruct Hf as [<-|[]]. cbn [text make_chunk]. rewrite clean_text_stripped.
  destruct (Z_le_gt_dec (Z.of_nat (length (clean_text x))) (chunk_size cfg));
    [now left | right; split; [apply paragraphs_of_clean_text | lia]].
Qed.

End SingleParagraph.

(** *** The source name *)

Section SourceName.

Lemma basename_aux_no_slash (cur s : pystr) :
  ~ In 47%N s -> basename_aux cur s = cur.
Proof.
  revert cur; induction s as [|c s IH]; intros cur H; [reflexivity|].
  cbn [basename_aux]. destruct (c =? 47)%N eqn:E.
  - apply N.eqb_eq in E. subst. exfalso. apply H. now left.
  - apply IH. intros Hin. apply H. now right.
Qed.

Lemma basename_aux_after_slash (cur dir name : pystr) :
  ~ In 47%N name -> basename_aux cur (dir ++ 47%N :: name) = name.
Proof.
  intros H. revert cur; induction dir as [|c dir IH]; intros cur.
  - cbn. now apply basename_aux_no_slash.
  - cbn [app basename_aux]. destruct (c =? 47)%N; apply IH.
Qed.

Lemma basename_after_slash (dir name : pystr) :
  ~ In 47%N name -> basename (dir ++ 47%N :: name) = name.
Proof. apply basename_aux_after_slash. Qed.

Lemma replace_pdf_plain (stem : pystr) :
  ~ In 46%N stem ->
  replace (of_string ".pdf") [] (stem ++ of_string ".pdf") = stem.
Proof.
  unfold replace. induction stem as [|c stem IH]; intros H; [reflexivity|].
  cbn [app replace_aux].
  assert (Hc : startswith (of_string ".pdf") (c :: stem ++ of_string ".pdf") = false).
  { change (of_string ".pdf") with (46%N :: of_string "pdf") at 1.
    cbn [startswith]. destruct (46 =? c)%N eqn:E; [|reflexivity].
    apply N.eqb_eq in E. subst. exfalso. apply H. now left. }
  rewrite Hc. f_equal. apply IH. intros Hin. apply H. now right.
Qed.

(** The intended case: one extension, at the end of the name. *)
Lemma source_name_plain (dir stem : pystr) :
  ~ In 47%N stem -> ~ In 46%N stem ->
  source_name_of (dir ++ 47%N :: stem ++ of_string ".pdf") = stem.
Proof.
  intros Hslash Hdot. unfold source_name_of.
  rewrite basename_after_slash; [now apply replace_pdf_plain|].
  intros Hin. apply in_app_or in Hin as [Hin|Hin]; [auto|].
  vm_compute in Hin. intuition discriminate.
Qed.

End SourceName.

(** * The claims *)

(** ** The normalizer *)

(** What [clean_text] does guarantee: no newline and no null character
    in the result, a result that is empty or longer than ten
    characters and, when the input has no null character, no two
    adjacent spaces. *)
Lemma clean_text_invariant (x : pystr) :
  ~ In NEWLINE (clean_text x)
  /\ ~ In NUL (clean_text x)
  /\ (clean_text x = [] \/ 10 < length (clean_text x))
  /\ (~ In NUL x ->
      forall pre post, clean_text x <> pre ++ [SPACE; SPACE] ++ post).
Proof.
  repeat split.
  - apply clean_text_no_newline.
  - apply clean_text_no_nul.
  - apply clean_text_length.
  - intros Hnul pre post Heq.
    pose proof (clean_text_normal_nul_free x Hnul) as Hn.
    rewrite Heq, ws_normal_no_double_space in Hn. discriminate.
Qed.

(** C2.  Normalization is not idempotent on a text with a null
    character between two spaces: [clean_text] collapses the
    whitespace before it removes the null characters, so the first
    application returns ["PLAZO: 15  dias habiles"] with two adjacent
    spaces and the second application collapses them. *)
Theorem clean_text_not_idempotent :
  clean_text nul_between_spaces = of_string "PLAZO: 15  dias habiles"
  /\ clean_text (clean_text nul_between_spaces) = of_string "PLAZO: 15 dias habiles"
  /\ clean_text (clean_text nul_between_spaces) <> clean_text nul_between_spaces.
Proof. vm_compute. repeat split. discriminate. Qed.

(** C3.  The output of [clean_text] can hold two consecutive spaces:
    on ["COSTO: S/ 120.00 \x00 (12% UIT)"] the null character is
    removed after the whitespace has been collapsed, and the two
    spaces around it become adjacent. *)
Theorem clean_text_adjacent_spaces :
  clean_text nul_in_cost_line
  = of_string "COSTO: S/ 120.00" ++ [SPACE; SPACE] ++ of_string "(12% UIT)".
Proof. vm_compute. reflexivity. Qed.

(** C9.  The substitution on newlines is dead: [clean_text] equals
    the normalizer that only collapses whitespace, removes null
    characters and filters short lines. *)
Theorem newline_pass_is_dead (x : pystr) :
  clean_text x = clean_text_single_pass x.
Proof.
  unfold clean_text, clean_text_single_pass. now rewrite newline_pass_dead.
Qed.

(** ** The chunker *)

(** A text without two adjacent newlines, as every normalized text
    is, has no blank-line separator and is one paragraph. *)
Lemma absent_no_adjacent (c : char) (s : pystr) :
  ~ In c s -> has_adjacent c s = false.
Proof.
  induction s as [|a s IH]; intros H; [reflexivity|].
  cbn [has_adjacent]. destruct s as [|b s]; [reflexivity|].
  rewrite IH by (intros Hin; apply H; now right).
  replace (a =? c)%N with false; [reflexivity|].
  symmetry. apply N.eqb_neq. intros ->. apply H. now left.
Qed.

Lemma clean_text_no_blank_line (x : pystr) :
  has_adjacent NEWLINE (clean_text x) = false.
Proof. apply absent_no_adjacent, clean_text_no_newline. Qed.

Lemma split_aux_no_blank_line (s : pystr) :
  has_adjacent NEWLINE s = false ->
  split_aux [NEWLINE; NEWLINE] 0 s = (s, []).
Proof.
  induction s as [|a s IH]; intros H; [reflexivity|].
  cbn [has_adjacent] in H. cbn [split_aux startswith].
  destruct s as [|b s].
  - rewrite andb_false_r. reflexivity.
  - apply orb_false_elim in H as [Hab Hs].
    rewrite andb_true_r, (N.eqb_sym NEWLINE a), (N.eqb_sym NEWLINE b), Hab.
    now rewrite (IH Hs).
Qed.

Lemma paragraphs_of_no_blank_line (s : pystr) :
  has_adjacent NEWLINE s = false -> paragraphs_of s = [s].
Proof.
  intros H. unfold paragraphs_of, split. now rewrite split_aux_no_blank_line.
Qed.

(** C1.  For a normalized text, which has no run of newlines longer
    than one, every fragment of [chunk_text] has a text of at most
    [chunk_size] characters, except the fragment made of the single
    paragraph that the text is when that paragraph alone exceeds
    [chunk_size].  Every text that [clean_text] returns is such a
    text ([clean_text_no_blank_line]). *)
Theorem normalized_chunk_size_bound
        (cfg : Config) (txt source : pystr) (f : DocumentChunk) :
  has_adjacent NEWLINE txt = false ->
  In f (chunk_text cfg txt source) ->
  (Z.of_nat (length (text f)) <= chunk_size cfg)%Z
  \/ (paragraphs_of txt = [txt]
      /\ text f = strip txt
      /\ (chunk_size cfg < Z.of_nat (length txt))%Z).
Proof.
  intros Hn Hf. pose proof (paragraphs_of_no_blank_line txt Hn) as Hp.
  rewrite (chunk_text_single cfg source txt txt Hp) in Hf.
  destruct (truthy (strip txt)); [|contradiction].
  destruct Hf as [<-|[]]. cbn [text make_chunk].
  destruct (Z_le_gt_dec (Z.of_nat (length txt)) (chunk_size cfg)) as [Hle|Hgt].
  - left. pose proof (length_strip_le txt). lia.
  - right. repeat split; [assumption | lia].
Qed.

Lemma normalized_chunk_size_bound_witness :
  has_adjacent NEWLINE (clean_text requisitos_line) = false
  /\ In (make_chunk (of_string "doc") 0 (clean_text requisitos_line))
        (chunk_text (mkConfig 20 3) (clean_text requisitos_line) (of_string "doc"))
  /\ ((Z.of_nat (length (text (make_chunk (of_string "doc") 0
                                          (clean_text requisitos_line)))) <= 20)%Z
      \/ (paragraphs_of (clean_text requisitos_line) = [clean_text requisitos_line]
          /\ text (make_chunk (of_string "doc") 0 (clean_text requisitos_line))
             = strip (clean_text requisitos_line)
          /\ (20 < Z.of_nat (length (clean_text requisitos_line)))%Z)).
Proof.
  assert (Hn : has_adjacent NEWLINE (clean_text requisitos_line) = false)
    by reflexivity.
  assert (Hin : In (make_chunk (of_string "doc") 0 (clean_text requisitos_line))
                   (chunk_text (mkConfig 20 3) (clean_text requisitos_line)
                               (of_string "doc")))
    by (vm_compute; left; reflexivity).
  split; [exact Hn|]. split; [exact Hin|].
  exact (normalized_chunk_size_bound (mkConfig 20 3) (clean_text requisitos_line)
           (of_string "doc") _ Hn Hin).
Defined.

(** C5.  [chunk_text] is a total function: no input makes it fail.
    For a blank normalized text, empty or all whitespace and without
    a run of newlines longer than one, it returns no fragment,
    whatever the configuration. *)
Theorem blank_normalized_text_no_fragment
        (cfg : Config) (txt source : pystr) :
  forallb isspace txt = true ->
  has_adjacent NEWLINE txt = false ->
  chunk_text cfg txt source = [].
Proof.
  intros Hb Hn.
  rewrite (chunk_text_single cfg source txt txt (paragraphs_of_no_blank_line txt Hn)).
  now rewrite strip_blank.
Qed.

Lemma blank_normalized_text_no_fragment_witness :
  forallb isspace [SPACE] = true
  /\ has_adjacent NEWLINE [SPACE] = false
  /\ chunk_text (mkConfig 0 3) [SPACE] (of_string "doc") = [].
Proof.
  split; [reflexivity|]. split; [reflexivity|].
  exact (blank_normalized_text_no_fragment (mkConfig 0 3) [SPACE] (of_string "doc")
           eq_refl eq_refl).
Defined.

(** Texts with blank-line separators, which [clean_text] never
    returns.  Every fragment has a text of at most [chunk_size + 2]
    characters (the size test does not count the separator it then
    inserts), unless it is the trimmed text of a single paragraph
    longer than [chunk_size] or, when [chunk_overlap > 0], the trimmed
    text of an overlap seed: the overlap words of some string, a
    space and one paragraph. *)
Theorem chunk_size_soft_bound (cfg : Config) (txt source : pystr) (f : DocumentChunk) :
  In f (chunk_text cfg txt source) ->
  (Z.of_nat (length (text f)) <= chunk_size cfg + 2)%Z
  \/ (exists p, In p (paragraphs_of txt)
                /\ (chunk_size cfg < Z.of_nat (length p))%Z
                /\ text f = strip p)
  \/ ((0 < chunk_overlap cfg)%Z
      /\ exists prev p, In p (paragraphs_of txt)
                        /\ text f = strip (overlap_seed (chunk_overlap cfg) prev p)).
Proof.
  intros Hf.
  pose proof (sized_final cfg source (paragraphs_of txt) _
                (sized_loop cfg source (paragraphs_of txt))) as H.
  rewrite Forall_forall in H. destruct (H f Hf) as (acc & Ht & Hacc).
  destruct Hacc as [Hle | [[Hin Hgt] | [Hov (prev & p & Hp & ->)]]].
  - left. rewrite Ht. pose proof (length_strip_le acc). lia.
  - right; left. now exists acc.
  - right; right. split; [assumption|]. now exists prev, p.
Qed.

Lemma chunk_size_soft_bound_witness :
  In overlap_fragment (chunk_text (mkConfig 20 3) near_bound_text (of_string "doc"))
  /\ ((Z.of_nat (length (text overlap_fragment)) <= 20 + 2)%Z
      \/ (exists p, In p (paragraphs_of near_bound_text)
                    /\ (20 < Z.of_nat (length p))%Z
                    /\ text overlap_fragment = strip p)
      \/ ((0 < 3)%Z
          /\ exists prev p, In p (paragraphs_of near_bound_text)
                            /\ text overlap_fragment
                               = strip (overlap_seed 3 prev p))).
Proof.
  assert (Hin : In overlap_fragment
                   (chunk_text (mkConfig 20 3) near_bound_text (of_string "doc")))
    by (vm_compute; right; left; reflexivity).
  split; [exact Hin|].
  exact (chunk_size_soft_bound (mkConfig 20 3) near_bound_text (of_string "doc")
           overlap_fragment Hin).
Defined.

(** On such a text the bound [chunk_size] itself can be exceeded.
    With [chunk_size = 20] and [chunk_overlap = 3] two paragraphs of
    20 characters each give a second fragment of 41 characters, the
    two words of the first paragraph followed by the second
    paragraph, although no paragraph exceeds the bound. *)
Lemma chunk_size_bound_fails :
  ~ (forall f, In f (chunk_text (mkConfig 20 3) near_bound_text (of_string "doc")) ->
               (Z.of_nat (length (text f)) <= 20)%Z
               \/ exists p, In p (paragraphs_of near_bound_text)
                            /\ (20 < Z.of_nat (length p))%Z).
Proof.
  intros H.
  destruct (H overlap_fragment) as [Hle | (p & Hp & Hlen)].
  - vm_compute. right; left; reflexivity.
  - vm_compute in Hle. now apply Hle.
  - vm_compute in Hp. destruct Hp as [<- | [<- | []]]; vm_compute in Hlen; discriminate.
Qed.

(** Without overlap the bound is exceeded too, by the separator:
    two paragraphs of five characters fit [chunk_size = 10] by the
    size test and are joined into a fragment of twelve. *)
Lemma separator_not_counted :
  map (fun f => length (text f))
      (chunk_text (mkConfig 10 0)
                  (of_string "aaaaa" ++ [NEWLINE; NEWLINE] ++ of_string "bbbbb")
                  (of_string "doc"))
  = [12].
Proof. reflexivity. Qed.

(** C4.  A fragment can have an empty text: the emission inside the
    loop tests [current_chunk], not [current_chunk.strip()] as the
    emission after the loop does.  With [chunk_size = 20] a first
    paragraph of twelve spaces is emitted, trimmed to the empty
    string, when the second paragraph arrives. *)
Theorem blank_fragment_emitted :
  map text (chunk_text (mkConfig 20 0) indented_text (of_string "doc"))
  = [[]; of_string "REQUISITOS TUPA"].
Proof. vm_compute. reflexivity. Qed.

(** A blank text with a blank-line separator, which no normalized
    text has, can give a fragment: with [chunk_size = 3] two
    paragraphs of two spaces give one fragment, whose text is empty. *)
Theorem blank_input_yields_fragment :
  forallb isspace blank_paragraphs = true
  /\ chunk_text (mkConfig 3 0) blank_paragraphs (of_string "doc")
     = [make_chunk (of_string "doc") 0 [SPACE; SPACE]]
  /\ text (make_chunk (of_string "doc") 0 [SPACE; SPACE]) = [].
Proof. vm_compute. repeat split. Qed.

(** C6.  The fragments carry the indices [0 .. N-1] in the order of
    emission, as [chunk_id] in the metadata and in the identifier
    [{source}_chunk_{index}]. *)
Theorem chunk_ids_contiguous (cfg : Config) (txt source : pystr) :
  map (fun c => (id c, md_chunk_id (metadata c))) (chunk_text cfg txt source)
  = map (fun i => (source ++ of_string "_chunk_" ++ str_of_nat i, i))
        (seq 0 (length (chunk_text cfg txt source))).
Proof.
  apply (numbered_final source). apply numbered_loop.
Qed.

(** C7.  When the paragraph [p] makes the loop emit the accumulator
    and [chunk_overlap > 0], the new accumulator is the last
    [chunk_overlap] words of the emitted accumulator (all of them if
    there are fewer) joined by single spaces, then one space, then
    [p]; the emitted accumulator is the fragment of that index and
    the text of the next fragment, if there is one, is the trimmed
    text of a string that starts with the new accumulator. *)
Theorem overlap_seed_after_emission (cfg : Config) (txt source : pystr)
        (before : list pystr) (p : pystr) (rest : list pystr) :
  paragraphs_of txt = before ++ p :: rest ->
  let st := chunk_loop cfg source before initial_state in
  (0 < chunk_overlap cfg)%Z ->
  truthy (current_chunk st) = true ->
  (chunk_size cfg < Z.of_nat (length (current_chunk st)) + Z.of_nat (length p))%Z ->
  exists skipped overlap_words,
    split_ws (current_chunk st) = skipped ++ overlap_words
    /\ length overlap_words
       = Nat.min (Z.to_nat (chunk_overlap cfg)) (length (split_ws (current_chunk st)))
    /\ current_chunk (chunk_step cfg source st p)
       = join [SPACE] overlap_words ++ [SPACE] ++ p
    /\ nth_error (chunk_text cfg txt source) (chunk_id st)
       = Some (make_chunk source (chunk_id st) (current_chunk st))
    /\ forall f, nth_error (chunk_text cfg txt source) (S (chunk_id st)) = Some f ->
                 exists sfx,
                   text f = strip (join [SPACE] overlap_words ++ [SPACE] ++ p ++ sfx).
Proof.
  intros Hpar st Hov Ht Hsize.
  destruct (slice_last_spec (Z.to_nat (chunk_overlap cfg))
              (split_ws (current_chunk st))) as (skipped & Hsplit & Hlen).
  exists skipped, (slice_last (Z.to_nat (chunk_overlap cfg)) (split_ws (current_chunk st))).
  pose proof (chunk_step_emit cfg source st p Ht Hsize) as Hstep.
  assert (Hov' : (0 <? chunk_overlap cfg)%Z = true) by now apply Z.ltb_lt.
  rewrite Hov' in Hstep. unfold overlap_seed in Hstep.
  rewrite overlap_words_slice in Hstep.
  destruct (numbered_loop cfg source before) as [Hid _]. fold st in Hid.
  rewrite (chunk_text_split cfg source txt before p rest Hpar). fold st.
  repeat split; try assumption.
  - now rewrite Hstep.
  - destruct (chunk_run_grow cfg source rest (chunk_step cfg source st p))
      as (more & ->).
    rewrite Hstep. cbn [chunks]. rewrite <- app_assoc. cbn [app].
    rewrite Hid. apply nth_error_middle.
  - intros f Hf.
    assert (Hlen' : S (chunk_id st) = length (chunks (chunk_step cfg source st p))).
    { rewrite Hstep. cbn [chunks]. rewrite length_app, Hid. cbn. lia. }
    rewrite Hlen' in Hf. apply next_fragment in Hf.
    + destruct Hf as (sfx & ->). exists sfx. cbn [text make_chunk].
      rewrite Hstep. cbn [current_chunk]. now rewrite <- !app_assoc.
    + rewrite Hstep. cbn [current_chunk].
      now destruct (join _ _).
Qed.

Lemma overlap_seed_after_emission_witness :
  exists skipped overlap_words,
    split_ws (of_string "aa bb cc dd") = skipped ++ overlap_words
    /\ length overlap_words = 2
    /\ current_chunk
         (chunk_step (mkConfig 12 2) (of_string "doc")
            (chunk_loop (mkConfig 12 2) (of_string "doc")
               [of_string "aa bb cc dd"] initial_state)
            (of_string "ee ff"))
       = join [SPACE] overlap_words ++ [SPACE] ++ of_string "ee ff"
    /\ nth_error (chunk_text (mkConfig 12 2) two_paragraphs (of_string "doc")) 0
       = Some (make_chunk (of_string "doc") 0 (of_string "aa bb cc dd"))
    /\ forall f,
        nth_error (chunk_text (mkConfig 12 2) two_paragraphs (of_string "doc")) 1
        = Some f ->
        exists sfx,
          text f = strip (join [SPACE] overlap_words ++ [SPACE]
                          ++ of_string "ee ff" ++ sfx).
Proof.
  exact (overlap_seed_after_emission (mkConfig 12 2) two_paragraphs (of_string "doc")
           [of_string "aa bb cc dd"] (of_string "ee ff") []
           eq_refl eq_refl eq_refl eq_refl).
Defined.

(** Scenario 4 on that input: the second fragment is the last two
    words of the first, a space and the second paragraph. *)
Lemma overlap_scenario :
  map text (chunk_text (mkConfig 12 2) two_paragraphs (of_string "doc"))
  = [of_string "aa bb cc dd"; of_string "cc dd ee ff"].
Proof. vm_compute. reflexivity. Qed.

(** C10.  The text that [clean_text] returns has no newline, hence no
    blank-line separator and one paragraph, and [chunk_text] makes at
    most one fragment of it. *)
Theorem normalized_text_single_fragment (cfg : Config) (x source : pystr) :
  ~ In NEWLINE (clean_text x)
  /\ paragraphs_of (clean_text x) = [clean_text x]
  /\ length (chunk_text cfg (clean_text x) source) <= 1.
Proof.
  split; [apply clean_text_no_newline|]. split.
  - apply paragraphs_of_clean_text.
  - rewrite chunk_text_normalized. destruct (truthy _); cbn; lia.
Qed.

(** ** The source name *)

(** C8.  The source name is not the base name without its [.pdf]
    suffix: [replace] removes every occurrence of [.pdf].  For
    [docs/tupa.pdf_2024.pdf] the base name without the suffix is
    [tupa.pdf_2024], the source name is [tupa_2024], and that is the
    name in the identifiers of the fragments. *)
Theorem source_name_drops_inner_pdf :
  basename doubled_extension = of_string "tupa.pdf_2024.pdf"
  /\ strip_pdf_suffix (basename doubled_extension) = of_string "tupa.pdf_2024"
  /\ source_name_of doubled_extension = of_string "tupa_2024"
  /\ map id (process_pdf_file (fun _ => of_string "Requisitos de la licencia")
               (mkConfig 1000 50) doubled_extension)
     = [of_string "tupa_2024_chunk_0"].
Proof. vm_compute. repeat split. Qed.

(** * Further properties of the processor *)

(** ** Splitting and joining *)

Section SplitJoin.

Lemma startswith_app (sep s : pystr) :
  startswith sep s = true -> s = sep ++ skipn (length sep) s.
Proof.
  revert s; induction sep as [|p sep IH]; intros s H; [reflexivity|].
  destruct s as [|c s]; [discriminate|].
  cbn [startswith] in H. apply andb_prop in H as [Hc Hs].
  apply N.eqb_eq in Hc. subst. cbn. f_equal. now apply IH.
Qed.

Lemma join_cons_char (sep : pystr) (c : char) (h : pystr) (t : list pystr) :
  join sep ((c :: h) :: t) = c :: join sep (h :: t).
Proof. destruct t; reflexivity. Qed.

Lemma split_aux_join (sep : pystr) (s : pystr) :
  sep <> [] ->
  forall k, join sep (fst (split_aux sep k s) :: snd (split_aux sep k s))
            = skipn k s.
Proof.
  intros Hsep. induction s as [|c s IH]; intros k.
  - now destruct k.
  - cbn [split_aux]. destruct k as [|k]; [|apply IH].
    destruct (startswith sep (c :: s)) eqn:Hst.
    + specialize (IH (length sep - 1)).
      destruct (split_aux sep (length sep - 1) s) as [h t].
      cbn [fst snd] in *.
      change (join sep ([] :: h :: t)) with (sep ++ join sep (h :: t)).
      rewrite IH. cbn [skipn].
      apply startswith_app in Hst.
      destruct sep as [|p sep]; [congruence|].
      cbn [length] in *. rewrite Nat.sub_succ, Nat.sub_0_r.
      cbn [skipn] in Hst. now symmetry.
    + specialize (IH 0).
      destruct (split_aux sep 0 s) as [h t]. cbn [fst snd] in *.
      rewrite join_cons_char. now rewrite IH.
Qed.

Lemma join_split (sep s : pystr) : sep <> [] -> join sep (split sep s) = s.
Proof.
  intros Hsep. unfold split.
  pose proof (split_aux_join sep s Hsep 0) as H.
  destruct (split_aux sep 0 s). exact H.
Qed.

Lemma split_not_nil (sep s : pystr) : split sep s <> [].
Proof. unfold split. now destruct (split_aux sep 0 s). Qed.

End SplitJoin.

(** ** Words *)

Section Words.

Lemma isspace_not_nul (c : char) : isspace c = true -> (c =? NUL)%N = false.
Proof.
  intros H. apply N.eqb_neq. intros ->. discriminate.
Qed.

Lemma split_ws_aux_scrub (s : pystr) :
  forall (cur : option pystr) (b : bool),
    (b = true -> cur = None) ->
    split_ws_aux cur (filter (fun c => negb (c =? NUL)%N)
                             (re_sub_plus_aux isspace SPACE b s))
    = split_ws_aux cur (filter (fun c => negb (c =? NUL)%N) s).
Proof.
  induction s as [|c s IH]; intros cur b Hb; [reflexivity|].
  cbn [re_sub_plus_aux filter]. destruct (isspace c) eqn:Hc.
  - rewrite (isspace_not_nul c Hc). cbn [negb split_ws_aux]. rewrite Hc.
    destruct b.
    + rewrite (Hb eq_refl). now apply IH.
    + cbn [filter]. change (negb (SPACE =? NUL)%N) with true.
      cbn [split_ws_aux]. change (isspace SPACE) with true.
      destruct cur; [f_equal|]; now apply IH.
  - cbn [filter]. destruct (c =? NUL)%N; cbn [negb].
    + apply IH. intros; discriminate.
    + cbn [split_ws_aux]. rewrite Hc.
      destruct cur; apply IH; intros; discriminate.
Qed.

Lemma split_ws_aux_blank (w : pystr) :
  forallb isspace w = true -> split_ws_aux None w = [].
Proof.
  induction w as [|c w IH]; [reflexivity|].
  cbn [forallb split_ws_aux]. intros H. apply andb_prop in H as [-> H]. auto.
Qed.

Lemma split_ws_blank_prefix (w s : pystr) :
  forallb isspace w = true -> split_ws (w ++ s) = split_ws s.
Proof.
  unfold split_ws. induction w as [|c w IH]; [reflexivity|].
  cbn [forallb app split_ws_aux]. intros H. apply andb_prop in H as [-> H]. auto.
Qed.

Lemma split_ws_aux_blank_suffix (w s : pystr) :
  forallb isspace w = true ->
  forall cur, split_ws_aux cur (s ++ w) = split_ws_aux cur s.
Proof.
  intros Hw. induction s as [|c s IH]; intros cur.
  - cbn [app]. destruct w as [|d w]; [reflexivity|].
    cbn [forallb] in Hw. apply andb_prop in Hw as [Hd Hw].
    cbn [split_ws_aux]. rewrite Hd, (split_ws_aux_blank w Hw).
    now destruct cur.
  - cbn [app split_ws_aux].
    destruct (isspace c); destruct cur; now rewrite ?IH.
Qed.

Lemma split_ws_strip (s : pystr) : split_ws (strip s) = split_ws s.
Proof.
  destruct (strip_decompose s) as (w1 & w2 & H & Hw1 & Hw2).
  rewrite H at 2. rewrite split_ws_blank_prefix by assumption.
  unfold split_ws. now rewrite split_ws_aux_blank_suffix.
Qed.

Lemma split_ws_scrubbed (x : pystr) :
  split_ws (scrubbed x) = split_ws (replace [NUL] [] x).
Proof.
  unfold scrubbed. rewrite split_ws_strip, replace_nul_filter.
  unfold split_ws, re_sub_plus. apply split_ws_aux_scrub. discriminate.
Qed.

(** The words that [split()] returns are words. *)
Lemma split_ws_aux_words (s : pystr) :
  forall cur, (forall w, cur = Some w -> is_word w = true) ->
              Forall (fun w => is_word w = true) (split_ws_aux cur s).
Proof.
  induction s as [|c s IH]; intros cur Hcur; cbn [split_ws_aux].
  - destruct cur; [|constructor]. constructor; [now apply Hcur | constructor].
  - destruct (isspace c) eqn:Hc.
    + destruct cur as [w|]; [constructor; [now apply Hcur|]|]; apply IH; discriminate.
    + destruct cur as [w|]; apply IH; intros w' [= <-];
        unfold is_word; cbn; rewrite ?Hc; [|reflexivity].
      specialize (Hcur w eq_refl). unfold is_word in Hcur.
      apply andb_prop in Hcur as [Ht Hf].
      rewrite forallb_app, Hf. cbn. rewrite Hc.
      now destruct w.
Qed.

Lemma split_ws_words (s : pystr) :
  Forall (fun w => is_word w = true) (split_ws s).
Proof. apply split_ws_aux_words. discriminate. Qed.

Lemma split_ws_aux_word_app (w s : pystr) :
  forallb (fun c => negb (isspace c)) w = true ->
  forall a, split_ws_aux (Some a) (w ++ s) = split_ws_aux (Some (a ++ w)) s.
Proof.
  induction w as [|c w IH]; intros Hw a.
  - now rewrite app_nil_r.
  - cbn [forallb] in Hw. apply andb_prop in Hw as [Hc Hw].
    apply negb_true_iff in Hc. cbn [app split_ws_aux]. rewrite Hc.
    rewrite IH by assumption. now rewrite <- app_assoc.
Qed.

Lemma split_ws_word_first (w s : pystr) :
  is_word w = true -> split_ws (w ++ SPACE :: s) = w :: split_ws s.
Proof.
  unfold is_word, split_ws. intros H. apply andb_prop in H as [Ht Hw].
  destruct w as [|c w]; [discriminate|].
  cbn [forallb] in Hw. apply andb_prop in Hw as [Hc Hw].
  apply negb_true_iff in Hc. cbn [app split_ws_aux]. rewrite Hc.
  rewrite split_ws_aux_word_app by assumption. reflexivity.
Qed.

Lemma split_ws_join_words (ws : list pystr) (p : pystr) :
  Forall (fun w => is_word w = true) ws ->
  split_ws (join [SPACE] ws ++ SPACE :: p) = ws ++ split_ws p.
Proof.
  induction 1 as [|w ws Hw Hws IH]; [reflexivity|].
  destruct ws as [|w2 ws].
  - cbn [join app]. now apply split_ws_word_first.
  - change (join [SPACE] (w :: w2 :: ws))
      with (w ++ [SPACE] ++ join [SPACE] (w2 :: ws)).
    rewrite <- !app_assoc. cbn [app].
    rewrite split_ws_word_first by assumption. now rewrite IH.
Qed.

Lemma Forall_slice_last {A} (P : A -> Prop) (k : nat) (l : list A) :
  Forall P l -> Forall P (slice_last k l).
Proof.
  intros H. unfold slice_last.
  rewrite <- (firstn_skipn (length l - k) l) in H.
  now apply Forall_app in H.
Qed.

End Words.

(** ** Fragments *)

Section Fragments.

Variable cfg : Config.
Variable source : pystr.

Lemma made_loop (paragraphs : list pystr) :
  Forall (fun f => exists i acc, f = make_chunk source i acc)
         (chunk_final source (chunk_loop cfg source paragraphs initial_state)).
Proof.
  assert (H : Forall (fun f => exists i acc, f = make_chunk source i acc)
                     (chunks (chunk_loop cfg source paragraphs initial_state))).
  { apply chunk_loop_ind; [|constructor].
    intros st p _ Hst. unfold chunk_step.
    destruct (_ <? _)%Z; [destruct (truthy _)|]; cbn [chunks]; try assumption.
    apply Forall_app. split; [assumption|]. constructor; [eauto | constructor]. }
  unfold chunk_final. destruct (truthy _); [|assumption].
  apply Forall_app. split; [assumption|]. constructor; [eauto | constructor].
Qed.

(** Counting. *)
Lemma count_step (st : LoopState) (p : pystr) (n : nat) :
  length (chunks st) + pending st <= n ->
  length (chunks (chunk_step cfg source st p))
  + pending (chunk_step cfg source st p) <= S n.
Proof.
  unfold chunk_step, pending.
  destruct (_ <? _)%Z; destruct (truthy (current_chunk st)) eqn:Ht;
    cbn [chunks current_chunk]; rewrite ?length_app; cbn [length];
    repeat match goal with |- context [if ?b then _ else _] => destruct b end;
    lia.
Qed.

Lemma count_loop (ps : list pystr) :
  forall (st : LoopState) (n : nat),
    length (chunks st) + pending st <= n ->
    length (chunks (chunk_loop cfg source ps st))
    + pending (chunk_loop cfg source ps st) <= n + length ps.
Proof.
  induction ps as [|p ps IH]; intros st n H.
  - cbn. lia.
  - change (chunk_loop cfg source (p :: ps) st)
      with (chunk_loop cfg source ps (chunk_step cfg source st p)).
    cbn [length]. rewrite <- Nat.add_succ_comm. apply IH. now apply count_step.
Qed.

Lemma count_final (st : LoopState) :
  length (chunk_final source st) <= length (chunks st) + pending st.
Proof.
  unfold chunk_final, pending.
  destruct (truthy (strip _)) eqn:Hs; [|lia].
  rewrite (truthy_strip _ Hs), length_app. cbn. lia.
Qed.

(** Coverage. *)
Lemma has_content_blank (s : pystr) :
  forallb isspace s = true -> has_content s = false.
Proof.
  unfold has_content. induction s as [|c s IH]; [reflexivity|].
  cbn. intros H. apply andb_prop in H as [-> H]. now apply IH.
Qed.

Lemma has_content_app (a b : pystr) :
  has_content (a ++ b) = has_content a || has_content b.
Proof. unfold has_content. apply existsb_app. Qed.

Lemma has_content_strip (s : pystr) :
  has_content s = true -> truthy (strip s) = true.
Proof.
  destruct (strip_decompose s) as (w1 & w2 & H & Hw1 & Hw2).
  intros Hc. rewrite H in Hc. rewrite !has_content_app in Hc.
  rewrite (has_content_blank w1 Hw1), (has_content_blank w2 Hw2) in Hc.
  destruct (strip s); [discriminate | reflexivity].
Qed.

Lemma held_by_content (acc p : pystr) :
  held_by acc p -> has_content p = true -> has_content acc = true.
Proof.
  intros (pre & post & ->) H. rewrite !has_content_app, H.
  now rewrite orb_true_r.
Qed.

Lemma held_by_truthy (acc p : pystr) :
  held_by acc p -> has_content p = true -> truthy acc = true.
Proof.
  intros Hh Hp. pose proof (held_by_content acc p Hh Hp) as H.
  destruct acc; [discriminate | reflexivity].
Qed.

Lemma held_by_suffix (p pre : pystr) : held_by (pre ++ p) p.
Proof. exists pre, []. now rewrite app_nil_r. Qed.

Lemma held_by_self (p : pystr) : held_by p p.
Proof. apply (held_by_suffix p []). Qed.

Lemma held_by_grow (acc p more : pystr) :
  held_by acc p -> held_by (acc ++ more) p.
Proof.
  intros (pre & post & ->). exists pre, (post ++ more).
  now rewrite <- !app_assoc.
Qed.

Lemma covered_emit (cs : list DocumentChunk) (i : nat) (acc p : pystr) :
  held_by acc p -> covered (cs ++ [make_chunk source i acc]) p.
Proof.
  intros (pre & post & ->). exists (make_chunk source i (pre ++ p ++ post)), pre, post.
  split; [apply in_or_app; right; now left | reflexivity].
Qed.

Lemma covered_grow (cs more : list DocumentChunk) (p : pystr) :
  covered cs p -> covered (cs ++ more) p.
Proof.
  intros (f & pre & post & Hin & Ht). exists f, pre, post.
  split; [apply in_or_app; now left | assumption].
Qed.

Lemma kept_step (st : LoopState) (q p : pystr) :
  has_content p = true ->
  held_by (current_chunk st) p \/ covered (chunks st) p ->
  held_by (current_chunk (chunk_step cfg source st q)) p
  \/ covered (chunks (chunk_step cfg source st q)) p.
Proof.
  intros Hp [Hh | Hc].
  - pose proof (held_by_truthy _ _ Hh Hp) as Ht.
    unfold chunk_step. rewrite Ht.
    destruct (_ <? _)%Z; cbn [chunks current_chunk].
    + right. now apply covered_emit.
    + left. now apply held_by_grow.
  - right. destruct (chunk_step_grow cfg source st q) as (more & ->).
    now apply covered_grow.
Qed.

Lemma taken_step (st : LoopState) (q : pystr) :
  held_by (current_chunk (chunk_step cfg source st q)) q.
Proof.
  unfold chunk_step.
  destruct (_ <? _)%Z; destruct (truthy (current_chunk st));
    cbn [current_chunk]; try apply held_by_self.
  - destruct (0 <? chunk_overlap cfg)%Z; [|apply held_by_self].
    unfold overlap_seed. rewrite app_assoc. apply held_by_suffix.
  - rewrite app_assoc. apply held_by_suffix.
Qed.

Lemma kept_loop (ps : list pystr) (p : pystr) :
  has_content p = true ->
  forall st,
    In p ps \/ held_by (current_chunk st) p \/ covered (chunks st) p ->
    held_by (current_chunk (chunk_loop cfg source ps st)) p
    \/ covered (chunks (chunk_loop cfg source ps st)) p.
Proof.
  intros Hp. induction ps as [|q ps IH]; intros st H.
  - destruct H as [[]|H]. exact H.
  - change (chunk_loop cfg source (q :: ps) st)
      with (chunk_loop cfg source ps (chunk_step cfg source st q)).
    apply IH. destruct H as [[<- | Hin] | H].
    + right. left. apply taken_step.
    + now left.
    + right. now apply kept_step.
Qed.

Lemma kept_final (st : LoopState) (p : pystr) :
  has_content p = true ->
  held_by (current_chunk st) p \/ covered (chunks st) p ->
  covered (chunk_final source st) p.
Proof.
  intros Hp [Hh | Hc]; unfold chunk_final.
  - rewrite (has_content_strip _ (held_by_content _ _ Hh Hp)).
    now apply covered_emit.
  - destruct (truthy _); [now apply covered_grow | assumption].
Qed.

End Fragments.

(** ** Identifiers *)

Section Identifiers.

Lemma of_string_inj (a b : String.string) : of_string a = of_string b -> a = b.
Proof.
  unfold of_string. intros H.
  rewrite <- (String.string_of_list_ascii_of_string a),
          <- (String.string_of_list_ascii_of_string b).
  f_equal. revert H.
  generalize (String.list_ascii_of_string a) (String.list_ascii_of_string b).
  induction l as [|x l IH]; intros [|y l'] H; try discriminate; [reflexivity|].
  cbn [map] in H. injection H as Hxy Hl.
  f_equal; [|now apply IH].
  rewrite <- (Ascii.ascii_N_embedding x), <- (Ascii.ascii_N_embedding y).
  now f_equal.
Qed.

Lemma str_of_nat_inj (n m : nat) : str_of_nat n = str_of_nat m -> n = m.
Proof.
  unfold str_of_nat. intros H. apply of_string_inj in H.
  apply DecimalNat.Unsigned.to_uint_inj.
  pose proof (DecimalString.NilEmpty.usu (Nat.to_uint n)) as Hn.
  pose proof (DecimalString.NilEmpty.usu (Nat.to_uint m)) as Hm.
  rewrite H in Hn. congruence.
Qed.

Lemma chunk_name_inj (source : pystr) (n m : nat) :
  source ++ of_string "_chunk_" ++ str_of_nat n
  = source ++ of_string "_chunk_" ++ str_of_nat m -> n = m.
Proof.
  intros H. apply app_inv_head in H. apply app_inv_head in H.
  now apply str_of_nat_inj.
Qed.

Lemma chunk_ids_listed (cfg : Config) (txt source : pystr) :
  map id (chunk_text cfg txt source)
  = map (fun i => source ++ of_string "_chunk_" ++ str_of_nat i)
        (seq 0 (length (chunk_text cfg txt source))).
Proof.
  pose proof (numbered_final source _ (numbered_loop cfg source (paragraphs_of txt))) as H.
  fold (chunk_text cfg txt source) in H.
  apply (f_equal (map fst)) in H. rewrite !map_map in H. exact H.
Qed.

End Identifiers.

(** ** From the pages to the fragment *)

Section Pipeline.

Lemma extract_pages_app (pages : list pystr) :
  forall n txt, extract_pages n pages txt = txt ++ extract_pages n pages [].
Proof.
  induction pages as [|pg pages IH]; intros n txt; cbn [extract_pages].
  - now rewrite app_nil_r.
  - rewrite (IH _ (txt ++ _)), (IH _ ([] ++ _)). cbn [app].
    now rewrite <- app_assoc.
Qed.

Lemma extract_first_page (pg : pystr) (pages : list pystr) :
  extract_pages 0 (pg :: pages) []
  = NEWLINE :: first_page_marker
    ++ NEWLINE :: pg ++ NEWLINE :: extract_pages 1 pages [].
Proof.
  cbn [extract_pages]. rewrite extract_pages_app.
  cbn [app]. unfold page_marker. rewrite <- !app_assoc. reflexivity.
Qed.

Lemma lstrip_nonspace_inside (u : pystr) (c : char) (v : pystr) :
  isspace c = false -> lstrip (u ++ c :: v) = lstrip u ++ c :: v.
Proof.
  intros Hc. induction u as [|d u IH]; cbn [app lstrip].
  - now rewrite Hc.
  - destruct (isspace d); [exact IH | reflexivity].
Qed.

Lemma rstrip_nonspace_inside (a : pystr) (c : char) (t : pystr) :
  isspace c = false -> rstrip (a ++ c :: t) = a ++ c :: rstrip t.
Proof.
  intros Hc. unfold rstrip.
  rewrite rev_app_distr. cbn [rev]. rewrite <- app_assoc. cbn [app].
  rewrite lstrip_nonspace_inside by assumption.
  rewrite rev_app_distr. cbn [rev]. rewrite rev_involutive, <- app_assoc.
  reflexivity.
Qed.

(** What [clean_text] starts with, on a text that starts with the
    marker of the first page. *)
Lemma scrubbed_first_page (tail : pystr) :
  exists body,
    scrubbed (NEWLINE :: first_page_marker ++ NEWLINE :: tail)
    = first_page_marker ++ body.
Proof.
  unfold scrubbed.
  exists (rstrip (SPACE :: filter (fun c => negb (c =? NUL)%N)
                              (re_sub_plus_aux isspace SPACE true tail))).
  change (re_sub_plus isspace SPACE (NEWLINE :: first_page_marker ++ NEWLINE :: tail))
    with (SPACE :: first_page_marker
          ++ SPACE :: re_sub_plus_aux isspace SPACE true tail).
  change (filter (fun c => negb (c =? NUL)%N)
                 (SPACE :: first_page_marker
                  ++ SPACE :: re_sub_plus_aux isspace SPACE true tail))
    with (SPACE :: first_page_marker
          ++ SPACE :: filter (fun c => negb (c =? NUL)%N)
                             (re_sub_plus_aux isspace SPACE true tail)).
  unfold strip.
  change (lstrip (SPACE :: first_page_marker ++ ?r))
    with (first_page_marker ++ r).
  exact (rstrip_nonspace_inside
           (of_string "--- P" ++ [225%N] ++ of_string "gina 1 --") 45%N _ eq_refl).
Qed.

Lemma clean_text_first_page (tail : pystr) :
  exists body,
    clean_text (NEWLINE :: first_page_marker ++ NEWLINE :: tail)
    = first_page_marker ++ body.
Proof.
  destruct (scrubbed_first_page tail) as (body & H).
  exists body. rewrite clean_text_shape, H.
  replace (10 <? length (first_page_marker ++ body)) with true; [reflexivity|].
  symmetry. apply Nat.ltb_lt. rewrite length_app.
  change (length first_page_marker) with 16. lia.
Qed.

Section WithReader.

Variable read_pages : pystr -> option (list pystr).
Variable cfg : Config.

Lemma process_pdf_file_unread (path : pystr) :
  has_pages read_pages path = false ->
  process_pdf_file (extract_text_from_pdf read_pages) cfg path = [].
Proof.
  unfold has_pages, process_pdf_file, extract_text_from_pdf.
  destruct (read_pages path) as [[|pg pages]|]; [reflexivity | discriminate | reflexivity].
Qed.

Lemma process_pdf_file_read (path : pystr) :
  has_pages read_pages path = true ->
  exists body,
    process_pdf_file (extract_text_from_pdf read_pages) cfg path
    = [ {| id := source_name_of path ++ of_string "_chunk_" ++ str_of_nat 0;
           text := first_page_marker ++ body;
           metadata := {| md_source := source_name_of path;
                          md_chunk_id := 0;
                          md_document_type := of_string "tupa" |} |} ].
Proof.
  unfold has_pages, process_pdf_file, extract_text_from_pdf.
  destruct (read_pages path) as [[|pg pages]|]; try discriminate. intros _.
  rewrite extract_first_page. cbn [truthy].
  destruct (clean_text_first_page (pg ++ NEWLINE :: extract_pages 1 pages []))
    as (body & H).
  exists body. rewrite chunk_text_normalized, H.
  unfold make_chunk. rewrite <- H, clean_text_stripped, H. reflexivity.
Qed.

End WithReader.

End Pipeline.

(** ** A directory of documents *)

Section DirectoryFacts.

Variable read_pages : pystr -> option (list pystr).
Variable listdir : pystr -> option (list pystr).
Variable cfg : Config.

Lemma fold_left_extend {A B} (f : A -> list B) (l : list A) :
  forall init, fold_left (fun acc x => acc ++ f x) l init = init ++ flat_map f l.
Proof.
  induction l as [|x l IH]; intros init; cbn [fold_left flat_map].
  - now rewrite app_nil_r.
  - now rewrite IH, app_assoc.
Qed.

Lemma process_multiple_pdfs_listed (dir : pystr) (entries : list pystr) :
  listdir dir = Some entries ->
  process_multiple_pdfs read_pages listdir cfg dir
  = flat_map (fun f => process_pdf_file (extract_text_from_pdf read_pages) cfg
                                        (path_join dir f))
             (filter (endswith (of_string ".pdf")) entries).
Proof.
  intros H. unfold process_multiple_pdfs. rewrite H.
  now rewrite fold_left_extend.
Qed.

Lemma process_pdf_file_ids (path : pystr) :
  map id (process_pdf_file (extract_text_from_pdf read_pages) cfg path)
  = if has_pages read_pages path
    then [source_name_of path ++ of_string "_chunk_0"] else [].
Proof.
  destruct (has_pages read_pages path) eqn:H.
  - destruct (process_pdf_file_read read_pages cfg path H) as (body & ->).
    reflexivity.
  - now rewrite process_pdf_file_unread.
Qed.

Lemma ids_of_files (dir : pystr) (files : list pystr) :
  map id (flat_map (fun f => process_pdf_file (extract_text_from_pdf read_pages) cfg
                                              (path_join dir f)) files)
  = map (fun f => source_name_of (path_join dir f) ++ of_string "_chunk_0")
        (filter (fun f => has_pages read_pages (path_join dir f)) files).
Proof.
  induction files as [|f files IH]; [reflexivity|].
  cbn [flat_map filter]. rewrite map_app, IH, process_pdf_file_ids.
  now destruct (has_pages _ _).
Qed.

Lemma endswith_slash (a : pystr) :
  endswith [47%N] a = true -> exists a', a = a' ++ [47%N].
Proof.
  unfold endswith. cbn [rev app]. intros H.
  destruct (rev a) as [|c r] eqn:E; [discriminate|].
  cbn [startswith] in H. apply andb_prop in H as [Hc _].
  apply N.eqb_eq in Hc. subst c. exists (rev r).
  rewrite <- (rev_involutive a), E. reflexivity.
Qed.

Lemma basename_path_join (dir f : pystr) :
  ~ In 47%N f -> basename (path_join dir f) = f.
Proof.
  intros Hf. unfold path_join.
  destruct (startswith [47%N] f) eqn:Hs.
  - destruct f as [|c f]; [discriminate|].
    cbn [startswith] in Hs. apply andb_prop in Hs as [Hc _].
    apply N.eqb_eq in Hc. subst c. exfalso. apply Hf. now left.
  - destruct dir as [|d dir]; cbn [truthy negb orb].
    + cbn [app]. now apply basename_aux_no_slash.
    + destruct (endswith [47%N] (d :: dir)) eqn:He.
      * apply endswith_slash in He as (a' & ->).
        rewrite <- app_assoc. cbn [app]. now apply basename_after_slash.
      * now apply basename_after_slash.
Qed.

End DirectoryFacts.

(** ** A text that fits *)

Section SmallText.

Variable cfg : Config.
Variable source : pystr.

Lemma join_snoc (sep : pystr) (l : list pystr) (q : pystr) :
  l <> [] -> join sep (l ++ [q]) = join sep l ++ sep ++ q.
Proof.
  induction l as [|x l IH]; intros H; [congruence|].
  destruct l as [|y l]; [reflexivity|].
  change (join sep ((x :: y :: l) ++ [q]))
    with (x ++ sep ++ join sep ((y :: l) ++ [q])).
  rewrite IH by discriminate.
  change (join sep (x :: y :: l)) with (x ++ sep ++ join sep (y :: l)).
  now rewrite <- !app_assoc.
Qed.

Lemma join_prefix_length (sep : pystr) (l1 l2 : list pystr) :
  length (join sep l1) <= length (join sep (l1 ++ l2)).
Proof.
  induction l1 as [|x l1 IH]; [cbn; lia|].
  destruct l1 as [|y l1].
  - destruct l2 as [|z l2]; [cbn; lia|].
    change (join sep ([x] ++ z :: l2)) with (x ++ sep ++ join sep (z :: l2)).
    cbn [join]. rewrite !length_app. lia.
  - change (join sep ((x :: y :: l1) ++ l2))
      with (x ++ sep ++ join sep ((y :: l1) ++ l2)).
    change (join sep (x :: y :: l1)) with (x ++ sep ++ join sep (y :: l1)).
    rewrite !length_app. lia.
Qed.

Lemma gathered_step (done : list pystr) (st : LoopState) (q : pystr) :
  gathered done st ->
  (Z.of_nat (length (join [NEWLINE; NEWLINE] (done ++ [q]))) <= chunk_size cfg)%Z ->
  gathered (done ++ [q]) (chunk_step cfg source st q).
Proof.
  intros (Hcs & Hid & w & Hw & Hj) Hfit.
  unfold gathered, chunk_step.
  destruct (truthy (current_chunk st)) eqn:Ht.
  - assert (Hdone : done <> []).
    { intros ->. cbn in Hj. destruct w; [|discriminate].
      cbn in Hj. rewrite <- Hj in Ht. discriminate. }
    rewrite (join_snoc _ done q Hdone), Hj in Hfit.
    rewrite !length_app in Hfit. cbn [length] in Hfit.
    replace (_ <? _)%Z with false by (symmetry; apply Z.ltb_ge; lia).
    cbn [chunks chunk_id current_chunk]. repeat split; try assumption.
    exists w. split; [assumption|].
    rewrite (join_snoc _ done q Hdone), Hj. now rewrite <- !app_assoc.
  - assert (Hcur : current_chunk st = []) by (destruct (current_chunk st); [reflexivity|discriminate]).
    rewrite Hcur, app_nil_r in Hj.
    assert (Hnew : exists w', forallb isspace w' = true
                              /\ join [NEWLINE; NEWLINE] (done ++ [q]) = w' ++ q).
    { destruct done as [|x done'].
      - now exists [].
      - exists (w ++ [NEWLINE; NEWLINE]). split.
        + rewrite forallb_app, Hw. reflexivity.
        + rewrite join_snoc by discriminate. rewrite Hj.
          now rewrite <- !app_assoc. }
    destruct (_ <? _)%Z; cbn [chunks chunk_id current_chunk];
      repeat split; assumption.
Qed.

Lemma gathered_loop (rest : list pystr) :
  forall (done : list pystr) (st : LoopState),
    gathered done st ->
    (Z.of_nat (length (join [NEWLINE; NEWLINE] (done ++ rest))) <= chunk_size cfg)%Z ->
    gathered (done ++ rest) (chunk_loop cfg source rest st).
Proof.
  induction rest as [|q rest IH]; intros done st Hg Hfit.
  - now rewrite app_nil_r.
  - change (chunk_loop cfg source (q :: rest) st)
      with (chunk_loop cfg source rest (chunk_step cfg source st q)).
    replace (done ++ q :: rest) with ((done ++ [q]) ++ rest) in *
      by now rewrite <- app_assoc.
    apply IH; [|assumption].
    apply gathered_step; [assumption|].
    pose proof (join_prefix_length [NEWLINE; NEWLINE] (done ++ [q]) rest). lia.
Qed.

Lemma lstrip_blank_prefix (w s : pystr) :
  forallb isspace w = true -> lstrip (w ++ s) = lstrip s.
Proof.
  induction w as [|c w IH]; [reflexivity|].
  cbn [forallb app lstrip]. intros H. apply andb_prop in H as [-> H]. auto.
Qed.

Lemma strip_blank_prefix (w s : pystr) :
  forallb isspace w = true -> strip (w ++ s) = strip s.
Proof.
  intros H. unfold strip. now rewrite lstrip_blank_prefix.
Qed.

End SmallText.

(** ** Properties of the chunker *)

(** Splitting into paragraphs loses nothing: the paragraphs joined by
    the blank-line separator are the text. *)
Theorem paragraphs_rejoin (txt : pystr) :
  join [NEWLINE; NEWLINE] (paragraphs_of txt) = txt.
Proof. apply join_split. discriminate. Qed.

(** Every fragment has a trimmed text, the source name it was asked
    for and the document type [tupa]. *)
Theorem fragments_well_formed (cfg : Config) (txt source : pystr) :
  Forall (fun f => strip (text f) = text f
                   /\ md_source (metadata f) = source
                   /\ md_document_type (metadata f) = of_string "tupa")
         (chunk_text cfg txt source).
Proof.
  eapply Forall_impl; [|apply made_loop].
  intros f (i & acc & ->). cbn. split; [apply strip_idem | now split].
Qed.

(** There are never more fragments than paragraphs. *)
Theorem fragments_at_most_paragraphs (cfg : Config) (txt source : pystr) :
  length (chunk_text cfg txt source) <= length (paragraphs_of txt).
Proof.
  unfold chunk_text.
  pose proof (count_final source
                (chunk_loop cfg source (paragraphs_of txt) initial_state)) as Hf.
  pose proof (count_loop cfg source (paragraphs_of txt) initial_state 0) as Hl.
  cbn in Hl. specialize (Hl (Nat.le_refl 0)). lia.
Qed.

(** No paragraph with something to read in it is lost: it lies in
    the accumulator that some fragment was trimmed from. *)
Theorem paragraph_covered (cfg : Config) (txt source p : pystr) :
  In p (paragraphs_of txt) ->
  has_content p = true ->
  exists f pre post,
    In f (chunk_text cfg txt source) /\ text f = strip (pre ++ p ++ post).
Proof.
  intros Hin Hp. apply (kept_final source _ p Hp).
  apply kept_loop; [assumption | now left].
Qed.

Lemma paragraph_covered_witness :
  In (of_string "ee ff") (paragraphs_of two_paragraphs)
  /\ has_content (of_string "ee ff") = true
  /\ exists f pre post,
      In f (chunk_text (mkConfig 12 2) two_paragraphs (of_string "doc"))
      /\ text f = strip (pre ++ of_string "ee ff" ++ post).
Proof.
  assert (Hin : In (of_string "ee ff") (paragraphs_of two_paragraphs))
    by (vm_compute; right; left; reflexivity).
  split; [exact Hin|]. split; [reflexivity|].
  exact (paragraph_covered (mkConfig 12 2) two_paragraphs (of_string "doc")
           (of_string "ee ff") Hin eq_refl).
Defined.

Lemma NoDup_map_inj {A B} (f : A -> B) (l : list A) :
  (forall x y, f x = f y -> x = y) -> NoDup l -> NoDup (map f l).
Proof.
  intros Hinj. induction 1 as [|x l Hx Hl IH]; cbn; constructor; [|assumption].
  intros Hin. apply in_map_iff in Hin as (y & Hy & Hyl).
  apply Hinj in Hy. now subst.
Qed.

(** The identifiers of the fragments of one text are pairwise distinct. *)
Theorem chunk_ids_unique (cfg : Config) (txt source : pystr) :
  NoDup (map id (chunk_text cfg txt source)).
Proof.
  rewrite chunk_ids_listed. apply NoDup_map_inj; [|apply seq_NoDup].
  apply chunk_name_inj.
Qed.

(** A text no longer than [chunk_size] is never split: it gives its
    trimmed text as the one fragment, or nothing when it is blank. *)
Theorem small_text_single_fragment (cfg : Config) (txt source : pystr) :
  (Z.of_nat (length txt) <= chunk_size cfg)%Z ->
  map text (chunk_text cfg txt source)
  = if truthy (strip txt) then [strip txt] else [].
Proof.
  intros Hfit. unfold chunk_text.
  assert (Hg : gathered (paragraphs_of txt)
                        (chunk_loop cfg source (paragraphs_of txt) initial_state)).
  { apply (gathered_loop cfg source (paragraphs_of txt) [] initial_state).
    - repeat split. now exists [].
    - cbn [app]. unfold paragraphs_of. now rewrite join_split. }
  remember (chunk_loop cfg source (paragraphs_of txt) initial_state) as st.
  destruct Hg as (Hcs & Hid & w & Hw & Hj).
  unfold paragraphs_of in Hj. rewrite join_split in Hj by discriminate.
  unfold chunk_final. rewrite Hcs, Hj, (strip_blank_prefix w _ Hw).
  now destruct (truthy _).
Qed.

Lemma small_text_single_fragment_witness :
  (Z.of_nat (length two_paragraphs) <= 1000)%Z
  /\ map text (chunk_text (mkConfig 1000 50) two_paragraphs (of_string "doc"))
     = if truthy (strip two_paragraphs) then [strip two_paragraphs] else [].
Proof.
  assert (H : (Z.of_nat (length two_paragraphs) <= 1000)%Z) by (vm_compute; discriminate).
  split; [exact H|].
  exact (small_text_single_fragment (mkConfig 1000 50) two_paragraphs (of_string "doc") H).
Defined.

(** The words of the accumulator seeded after an emission are the
    last [chunk_overlap] words of the emitted accumulator followed by
    the words of the paragraph: the overlap never cuts a word. *)
Theorem overlap_seed_words (overlap : Z) (cur p : pystr) :
  split_ws (overlap_seed overlap cur p)
  = slice_last (Z.to_nat overlap) (split_ws cur) ++ split_ws p.
Proof.
  unfold overlap_seed. rewrite overlap_words_slice.
  cbn [app]. apply split_ws_join_words.
  apply Forall_slice_last, split_ws_words.
Qed.

Lemma chunk_text_blank_paragraph_witness :
  forallb isspace [SPACE; NEWLINE; SPACE] = true
  /\ paragraphs_of [SPACE; NEWLINE; SPACE] = [[SPACE; NEWLINE; SPACE]]
  /\ chunk_text (mkConfig 1 0) [SPACE; NEWLINE; SPACE] (of_string "doc") = [].
Proof.
  split; [reflexivity|]. split; [reflexivity|].
  exact (chunk_text_blank_paragraph (mkConfig 1 0) (of_string "doc")
           [SPACE; NEWLINE; SPACE] eq_refl eq_refl).
Defined.

Lemma chunk_step_no_overlap (size overlap : Z) (source : pystr)
      (st : LoopState) (p : pystr) :
  (overlap <= 0)%Z ->
  chunk_step (mkConfig size overlap) source st p
  = chunk_step (mkConfig size 0) source st p.
Proof.
  intros H. unfold chunk_step. cbn [chunk_size chunk_overlap].
  replace (0 <? overlap)%Z with false by (symmetry; apply Z.ltb_ge; lia).
  reflexivity.
Qed.

(** An overlap that is not positive is no overlap. *)
Theorem negative_overlap_is_none (size overlap : Z) (txt source : pystr) :
  (overlap <= 0)%Z ->
  chunk_text (mkConfig size overlap) txt source
  = chunk_text (mkConfig size 0) txt source.
Proof.
  intros H. unfold chunk_text, chunk_loop. f_equal.
  generalize initial_state.
  induction (paragraphs_of txt) as [|p ps IH]; intros st; [reflexivity|].
  cbn [fold_left]. rewrite chunk_step_no_overlap by assumption. apply IH.
Qed.

Lemma negative_overlap_is_none_witness :
  (-3 <= 0)%Z
  /\ chunk_text (mkConfig 12 (-3)) two_paragraphs (of_string "doc")
     = chunk_text (mkConfig 12 0) two_paragraphs (of_string "doc").
Proof.
  assert (H : (-3 <= 0)%Z) by discriminate.
  split; [exact H|].
  exact (negative_overlap_is_none 12 (-3) two_paragraphs (of_string "doc") H).
Defined.

(** ** Properties of the normalizer *)

Lemma collapse_length (cls : char -> bool) (r : char) (s : pystr) :
  forall b, length (re_sub_plus_aux cls r b s) <= length s.
Proof.
  induction s as [|c s IH]; intros b; cbn [re_sub_plus_aux length]; [lia|].
  destruct (cls c); [destruct b|]; cbn [length];
    match goal with |- context [re_sub_plus_aux _ _ ?b' s] => specialize (IH b') end;
    lia.
Qed.

Lemma scrubbed_length (x : pystr) : length (scrubbed x) <= length x.
Proof.
  unfold scrubbed, re_sub_plus.
  etransitivity; [apply length_strip_le|].
  etransitivity; [apply filter_length_le | apply collapse_length].
Qed.

Lemma scrubbed_only_space (x : pystr) :
  forallb (fun c => negb (isspace c) || (c =? SPACE)%N) (scrubbed x) = true.
Proof.
  apply forallb_forall. intros c Hc.
  apply strip_incl, filter_In in Hc. destruct Hc as [Hc _].
  destruct (isspace c) eqn:Hs; [|reflexivity].
  apply collapse_only_space in Hc; [|assumption]. now subst.
Qed.

(** The result of [clean_text] has no whitespace but single-character
    spaces, no null character, no whitespace at either end, and is
    empty or longer than ten characters. *)
Theorem clean_text_output_shape (x : pystr) :
  forallb (fun c => negb (isspace c) || (c =? SPACE)%N) (clean_text x) = true
  /\ ~ In NUL (clean_text x)
  /\ strip (clean_text x) = clean_text x
  /\ (clean_text x = [] \/ 10 < length (clean_text x)).
Proof.
  repeat split.
  - rewrite clean_text_shape. destruct (10 <? _); [apply scrubbed_only_space | reflexivity].
  - apply clean_text_no_nul.
  - apply clean_text_stripped.
  - apply clean_text_length.
Qed.

(** Without null characters in the input, the result has no two
    adjacent spaces. *)
Theorem clean_text_no_adjacent_spaces (x : pystr) :
  ~ In NUL x ->
  forall pre post, clean_text x <> pre ++ [SPACE; SPACE] ++ post.
Proof.
  intros Hnul pre post Heq.
  assert (Hn : ws_normal false (clean_text x) = true).
  { rewrite clean_text_shape.
    destruct (10 <? _); [now apply scrubbed_normal | reflexivity]. }
  rewrite Heq, ws_normal_no_double_space in Hn. discriminate.
Qed.

Lemma requisitos_line_nul_free : ~ In NUL requisitos_line.
Proof.
  vm_compute. intros H.
  repeat (destruct H as [H|H]; [discriminate H|]). exact H.
Defined.

Lemma clean_text_no_adjacent_spaces_witness :
  ~ In NUL requisitos_line
  /\ forall pre post, clean_text requisitos_line <> pre ++ [SPACE; SPACE] ++ post.
Proof.
  split; [exact requisitos_line_nul_free|].
  exact (clean_text_no_adjacent_spaces requisitos_line requisitos_line_nul_free).
Defined.

Lemma clean_text_idempotent_nul_free_witness :
  ~ In NUL requisitos_line
  /\ clean_text (clean_text requisitos_line) = clean_text requisitos_line.
Proof.
  split; [exact requisitos_line_nul_free|].
  exact (clean_text_idempotent_nul_free requisitos_line requisitos_line_nul_free).
Defined.

(** When [clean_text] keeps a text, it keeps its words, in their
    order: the words of the result are the words of the input without
    its null characters. *)
Theorem clean_text_keeps_words (x : pystr) :
  clean_text x <> [] ->
  split_ws (clean_text x) = split_ws (replace [NUL] [] x).
Proof.
  rewrite clean_text_shape. destruct (10 <? _); [|congruence].
  intros _. apply split_ws_scrubbed.
Qed.

Lemma clean_text_keeps_words_witness :
  clean_text nul_in_cost_line <> []
  /\ split_ws (clean_text nul_in_cost_line)
     = split_ws (replace [NUL] [] nul_in_cost_line).
Proof.
  assert (H : clean_text nul_in_cost_line <> []) by (vm_compute; discriminate).
  split; [exact H|].
  exact (clean_text_keeps_words nul_in_cost_line H).
Defined.

(** [clean_text] never returns more characters than it was given. *)
Theorem clean_text_never_longer (x : pystr) :
  length (clean_text x) <= length x.
Proof.
  rewrite clean_text_shape. destruct (10 <? _); [apply scrubbed_length | cbn; lia].
Qed.

(** A text of at most ten characters is discarded whole. *)
Theorem clean_text_short_input (x : pystr) :
  length x <= 10 -> clean_text x = [].
Proof.
  intros H. rewrite clean_text_shape.
  pose proof (scrubbed_length x).
  replace (10 <? length (scrubbed x)) with false; [reflexivity|].
  symmetry. apply Nat.ltb_ge. lia.
Qed.

Lemma clean_text_short_input_witness :
  length (of_string "COSTO: S/5") <= 10
  /\ clean_text (of_string "COSTO: S/5") = [].
Proof.
  assert (H : length (of_string "COSTO: S/5") <= 10) by (vm_compute; lia).
  split; [exact H|].
  exact (clean_text_short_input (of_string "COSTO: S/5") H).
Defined.

(** ** Properties of the processing of files *)

(** The text read from a file is empty exactly when the file cannot be
    read or has no page. *)
Theorem extract_text_empty_without_pages
        (read_pages : pystr -> option (list pystr)) (path : pystr) :
  truthy (extract_text_from_pdf read_pages path) = has_pages read_pages path.
Proof.
  unfold extract_text_from_pdf, has_pages.
  destruct (read_pages path) as [[|pg pages]|]; try reflexivity.
  now rewrite extract_first_page.
Qed.

(** Whatever the text extracted, [process_pdf_file] returns nothing
    or one fragment, numbered 0, whose text is the normalized text. *)
Theorem process_pdf_file_normal_form
        (extract : pystr -> pystr) (cfg : Config) (path : pystr) :
  process_pdf_file extract cfg path
  = if truthy (clean_text (extract path))
    then [ {| id := source_name_of path ++ of_string "_chunk_0";
              text := clean_text (extract path);
              metadata := {| md_source := source_name_of path;
                             md_chunk_id := 0;
                             md_document_type := of_string "tupa" |} |} ]
    else [].
Proof.
  unfold process_pdf_file. destruct (extract path) as [|c raw] eqn:E.
  - reflexivity.
  - cbn [truthy]. rewrite chunk_text_normalized.
    unfold make_chunk. now rewrite clean_text_stripped.
Qed.

(** The chunk size and the overlap have no effect on what
    [process_pdf_file] returns. *)
Theorem process_pdf_file_ignores_config
        (extract : pystr -> pystr) (cfg cfg' : Config) (path : pystr) :
  process_pdf_file extract cfg path = process_pdf_file extract cfg' path.
Proof.
  unfold process_pdf_file. destruct (truthy (extract path)); [|reflexivity].
  now rewrite !chunk_text_normalized.
Qed.

(** A file that is read and has a page gives exactly one fragment,
    whose text starts with the marker of the first page; any other
    file gives none. *)
Theorem process_pdf_file_by_pages
        (read_pages : pystr -> option (list pystr)) (cfg : Config) (path : pystr) :
  if has_pages read_pages path
  then exists body,
      process_pdf_file (extract_text_from_pdf read_pages) cfg path
      = [ {| id := source_name_of path ++ of_string "_chunk_0";
             text := first_page_marker ++ body;
             metadata := {| md_source := source_name_of path;
                            md_chunk_id := 0;
                            md_document_type := of_string "tupa" |} |} ]
  else process_pdf_file (extract_text_from_pdf read_pages) cfg path = [].
Proof.
  destruct (has_pages read_pages path) eqn:H.
  - apply (process_pdf_file_read read_pages cfg path H).
  - now apply process_pdf_file_unread.
Qed.

(** The identifiers that [process_multiple_pdfs] returns: one per
    entry of the directory that ends in [.pdf], can be read and has a
    page, in the order of the listing. *)
Theorem directory_ids
        (read_pages listdir : pystr -> option (list pystr)) (cfg : Config)
        (dir : pystr) (entries : list pystr) :
  listdir dir = Some entries ->
  map id (process_multiple_pdfs read_pages listdir cfg dir)
  = map (fun f => source_name_of (path_join dir f) ++ of_string "_chunk_0")
        (filter (fun f => has_pages read_pages (path_join dir f))
                (filter (endswith (of_string ".pdf")) entries)).
Proof.
  intros H. rewrite (process_multiple_pdfs_listed _ _ _ _ _ H).
  apply ids_of_files.
Qed.

Lemma directory_ids_witness :
  sample_listdir (of_string "docs")
  = Some [of_string "tupa.pdf"; of_string "notas.txt";
          of_string "vacio.pdf"; of_string "licencias.pdf"]
  /\ map id (process_multiple_pdfs sample_reader sample_listdir
               (mkConfig 1000 50) (of_string "docs"))
     = [of_string "tupa_chunk_0"; of_string "licencias_chunk_0"].
Proof.
  split; [reflexivity|].
  exact (directory_ids sample_reader sample_listdir (mkConfig 1000 50)
           (of_string "docs") _ eq_refl).
Defined.

(** [process_multiple_pdfs] returns at most one fragment for each
    entry that ends in [.pdf], and none when the directory cannot be
    listed. *)
Theorem directory_count
        (read_pages listdir : pystr -> option (list pystr)) (cfg : Config)
        (dir : pystr) :
  length (process_multiple_pdfs read_pages listdir cfg dir)
  <= match listdir dir with
     | Some entries => length (filter (endswith (of_string ".pdf")) entries)
     | None => 0
     end.
Proof.
  destruct (listdir dir) as [entries|] eqn:H.
  - rewrite <- (length_map id), (process_multiple_pdfs_listed _ _ _ _ _ H).
    rewrite ids_of_files, length_map. apply filter_length_le.
  - unfold process_multiple_pdfs. rewrite H. cbn. lia.
Qed.

(** The source name of a listed file does not depend on the
    directory: it is the entry with every [.pdf] removed. *)
Theorem listed_source_name (dir f : pystr) :
  ~ In 47%N f ->
  source_name_of (path_join dir f) = replace (of_string ".pdf") [] f.
Proof.
  intros H. unfold source_name_of. now rewrite basename_path_join.
Qed.

Lemma tupa_pdf_no_slash : ~ In 47%N (of_string "tupa.pdf").
Proof.
  vm_compute. intros H.
  repeat (destruct H as [H|H]; [discriminate H|]). exact H.
Defined.

Lemma listed_source_name_witness :
  ~ In 47%N (of_string "tupa.pdf")
  /\ source_name_of (path_join (of_string "docs") (of_string "tupa.pdf"))
     = replace (of_string ".pdf") [] (of_string "tupa.pdf").
Proof.
  split; [exact tupa_pdf_no_slash|].
  exact (listed_source_name (of_string "docs") (of_string "tupa.pdf") tupa_pdf_no_slash).
Defined.

Lemma tupa_no_slash : ~ In 47%N (of_string "tupa").
Proof.
  vm_compute. intros H.
  repeat (destruct H as [H|H]; [discriminate H|]). exact H.
Defined.

Lemma tupa_no_dot : ~ In 46%N (of_string "tupa").
Proof.
  vm_compute. intros H.
  repeat (destruct H as [H|H]; [discriminate H|]). exact H.
Defined.

Lemma source_name_plain_witness :
  ~ In 47%N (of_string "tupa") /\ ~ In 46%N (of_string "tupa")
  /\ source_name_of (of_string "docs/2024" ++ 47%N :: of_string "tupa" ++ of_string ".pdf")
     = of_string "tupa".
Proof.
  split; [exact tupa_no_slash|]. split; [exact tupa_no_dot|].
  exact (source_name_plain (of_string "docs/2024") (of_string "tupa")
           tupa_no_slash tupa_no_dot).
Defined.
